(** * ducktail.js: Handlebars with a built-in file cache

    A shallow embedding of [lib/ducktail.js] and [lib/async.js].

    The JavaScript is callback based.  Its closures are represented by
    data ([Cont], [Event]) and interpreted by the functions that carry the
    names of the source; the code that runs between two returns to the
    event loop is a computation in a state-and-exception monad over the
    process-wide state ([Global]: the memory cache, the Handlebars registry,
    the options objects of the callers) and the variables of one
    [renderFile] activation ([Call]).  The event loop itself is the
    function [step]: it fires any pending callback of any activation, so
    that every order in which reads and ticks complete is covered.

    What the model takes from outside the repository:
    - the file system is a function [readFile] from a path to an error or
      a text, the same during a run;
    - Handlebars is a function [compile] that may raise and a function
      [invoke] for the call of a compiled template, which reads the
      registry and may raise; it changes nothing;
    - memory-cache is a finite map; async.parallel and async.each are the
      joins described where they are defined;
    - waiting callbacks fire in any order, which includes the order of
      Node;
    - the caller's callback is recorded when it is called ([delivered]);
      what the caller does in it, or at any other time, is a further step
      of the process;
    - an exception that leaves a callback is recorded ([raised]) and the
      event loop goes on; a process that stops at the exception has the
      runs considered here cut short.

    The file holds the model first (the engine, the current ducktail.js,
    its earlier variant, sample data, the helper of the tests, the
    vocabulary of the results) and the results after it: the registry
    loops, the early variant, the event loop and the joins, the properties
    of the public api, and their instances on the sample data. *)

From stdpp Require Import gmap strings list fin_maps.

(** ** A state monad with exceptions

    A thrown exception abandons the rest of the computation and keeps the
    state reached so far, as a JavaScript [throw] does. *)

Definition M (Exn S A : Type) : Type := S → S * (Exn + A).

Global Instance M_ret {Exn S} : MRet (M Exn S) := λ A a s, (s, inr a).

Global Instance M_bind {Exn S} : MBind (M Exn S) := λ A B f m s,
  match m s with
  | (s', inr a) => f a s'
  | (s', inl e) => (s', inl e)
  end.

Definition throw {Exn S A} (e : Exn) : M Exn S A := λ s, (s, inl e).
Definition gets {Exn S A} (f : S → A) : M Exn S A := λ s, (s, inr (f s)).
Definition modify {Exn S} (f : S → S) : M Exn S unit := λ s, (f s, inr tt).

(** Runs a computation on a component of the state. *)
Definition zoom {Exn S T A} (get : S → T) (set : T → S → S)
    (m : M Exn T A) : M Exn S A :=
  λ s, let '(t, r) := m (get s) in (set t s, r).

(** [forM_ l f]: a JavaScript loop calling [f] on every element in order. *)
Fixpoint forM_ {Exn S A} (l : list A) (f : A → M Exn S unit) : M Exn S unit :=
  match l with
  | [] => mret tt
  | x :: l' => f x ;; forM_ l' f
  end.

(** ** The model of lib/ducktail.js

    The definitions carry the names of the source; the module keeps them
    apart from the early variant of the file. *)

Module ducktail.

(** *** The templating engine (Handlebars)

    The engine is an external collaborator.  Its compiled templates and
    helper functions are opaque; [compile] and [invoke] are what the code
    calls on them.  A template reads the global registry when it runs and
    may raise. *)

Inductive Exn (EngineErr : Type) : Type :=
  | TypeError                  (* property access on null/undefined, call of a non-function *)
  | Raised (e : EngineErr).    (* raised by Handlebars.compile or by a running template *)
Arguments TypeError {EngineErr}.
Arguments Raised {EngineErr} e.

(** A value that is a compiled template or [undefined]. *)
Inductive JsTmpl (Template : Type) : Type :=
  | Undefined
  | Fn (t : Template).
Arguments Undefined {Template}.
Arguments Fn {Template} t.

(** Handlebars.partials and Handlebars.helpers. *)
Record Registry (Template Helper : Type) : Type := mkRegistry {
  reg_partials : gmap string (JsTmpl Template);
  reg_helpers : gmap string Helper;
}.
Arguments mkRegistry {Template Helper}.
Arguments reg_partials {Template Helper}.
Arguments reg_helpers {Template Helper}.

(** The [opts] argument of [renderTmpl]. *)
Record TmplOpts (Template Helper : Type) : Type := mkTmplOpts {
  partials : option (gmap string (JsTmpl Template));
  helpers : option (gmap string Helper);
}.
Arguments mkTmplOpts {Template Helper}.
Arguments partials {Template Helper}.
Arguments helpers {Template Helper}.

(** The [tmpl] argument of [renderTmpl]: a compiled template or source text. *)
Inductive TmplArg (Template : Type) : Type :=
  | Compiled (t : Template)
  | Source (s : string).
Arguments Compiled {Template} t.
Arguments Source {Template} s.

(** What the outside can observe of the file system and the cache: the
    calls of fs.readFile (what the tests count with a spy), their
    completions, and the calls of cache.clear.  Newest first. *)
Inductive Obs (Err : Type) : Type :=
  | ReadCall (path : string)
  | ReadDone (path : string) (r : Err + string)
  | CacheClear.
Arguments ReadCall {Err} path.
Arguments ReadDone {Err} path r.
Arguments CacheClear {Err}.

(** The observations made after the last cache.clear. *)
Fixpoint since_clear {Err} (tr : list (Obs Err)) : list (Obs Err) :=
  match tr with
  | [] => []
  | CacheClear :: _ => []
  | o :: tr' => o :: since_clear tr'
  end.

Definition is_ReadCall {Err} (o : Obs Err) : bool :=
  match o with ReadCall _ => true | _ => false end.

(** readFileSpy.callCount *)
Definition callCount {Err} (tr : list (Obs Err)) : nat :=
  length (filter (λ o, is_ReadCall o = true) tr).

(** A caller's callback function, by name. *)
Definition CbId : Type := nat.

Section Registry.
Context {Template Helper : Type}.
Local Abbreviation Registry := (Registry Template Helper).
Local Abbreviation TmplOpts := (TmplOpts Template Helper).

(** Handlebars.registerPartial(name, partial), unregisterPartial(name),
    registerHelper(name, fn), unregisterHelper(name).  The unregister
    functions ignore their second argument. *)
Definition registerPartial (name : string) (val : JsTmpl Template)
    (r : Registry) : Registry :=
  mkRegistry (<[name := val]> (reg_partials r)) (reg_helpers r).

Definition unregisterPartial (name : string) (val : JsTmpl Template)
    (r : Registry) : Registry :=
  mkRegistry (delete name (reg_partials r)) (reg_helpers r).

Definition registerHelper (name : string) (val : Helper)
    (r : Registry) : Registry :=
  mkRegistry (reg_partials r) (<[name := val]> (reg_helpers r)).

Definition unregisterHelper (name : string) (val : Helper)
    (r : Registry) : Registry :=
  mkRegistry (reg_partials r) (delete name (reg_helpers r)).

(** ducktail._loop:
    [_.each(obj, function (val, key) { Handlebars[action](key, val); })].
    [_.each] of [undefined] does nothing. *)
Definition _loop {V} (obj : option (gmap string V))
    (action : string → V → Registry → Registry) (r : Registry) : Registry :=
  match obj with
  | None => r
  | Some o => map_fold action r o
  end.

(** ducktail._register *)
Definition _register (opts : TmplOpts) (r : Registry) : Registry :=
  _loop (helpers opts) registerHelper
    (_loop (partials opts) registerPartial r).

(** ducktail._unregister *)
Definition _unregister (opts : TmplOpts) (r : Registry) : Registry :=
  _loop (helpers opts) unregisterHelper
    (_loop (partials opts) unregisterPartial r).
End Registry.

Section RenderTmpl.
Context {Data Helper Template EngineErr : Type}.
Local Abbreviation Registry := (Registry Template Helper).
Local Abbreviation TmplOpts := (TmplOpts Template Helper).
Local Abbreviation Exn := (Exn EngineErr).

(** Handlebars.compile(source), and the call [tmpl(data)] of a compiled
    template, which looks partials and helpers up in the registry. *)
Variable compile : string → EngineErr + Template.
Variable invoke : Template → Registry → Data → EngineErr + string.

Definition Handlebars_compile {S} (src : string) : M Exn S Template :=
  match compile src with
  | inl e => throw (Raised e)
  | inr t => mret t
  end.

Definition call_tmpl (t : Template) (data : Data) : M Exn Registry string :=
  r ← gets id;
  match invoke t r data with
  | inl e => throw (Raised e)
  | inr s => mret s
  end.

(** The template that the first line of [renderTmpl] arrives at:
    [_.isFunction(tmpl) ? tmpl : Handlebars.compile(tmpl)]. *)
Definition resolve (tmpl : TmplArg Template) : EngineErr + Template :=
  match tmpl with
  | Compiled t => inr t
  | Source s => compile s
  end.

(** ducktail.renderTmpl *)
Definition renderTmpl (tmpl : TmplArg Template) (data : Data)
    (opts : option TmplOpts) : M Exn Registry string :=
  tmpl ← match tmpl with
          | Compiled t => mret t
          | Source s => Handlebars_compile s
          end;
  let opts := default (mkTmplOpts None None) opts in
  modify (_register opts);;
  contents ← call_tmpl tmpl data;
  modify (_unregister opts);;
  mret contents.
End RenderTmpl.

(** *** ducktail.js (current variant) *)

(** The [opts] object of [render] and [renderFile]: partials maps a name
    to a file path. *)
Record Options (Helper : Type) : Type := mkOptions {
  opt_partials : option (gmap string string);
  opt_helpers : option (gmap string Helper);
}.
Arguments mkOptions {Helper}.
Arguments opt_partials {Helper}.
Arguments opt_helpers {Helper}.

(** The third argument of [render]: a function, (a reference to) an
    options object, or null/undefined. *)
Inductive OptsArg : Type :=
  | OptsFn (f : CbId)
  | OptsObj (o : nat)
  | OptsNull.

(** The callbacks handed to [_getTmpl]: the one async.parallel gives to its
    first task, and the [function (err, val)] that async.mapObj builds for
    a key. *)
Inductive Cont : Type :=
  | KMain
  | KPartial (key : string).

(** The callbacks waiting in the event loop:
    [process.nextTick(function () { callback(null, tmpl); })] of
    [_returnCached] and the completion callback of fs.readFile in
    [_returnRead]. *)
Inductive Event (Template : Type) : Type :=
  | Tick (tmpl : Template) (callback : Cont)
  | Read (tmplPath : string) (callback : Cont).
Arguments Tick {Template} tmpl callback.
Arguments Read {Template} tmplPath callback.

(** Modelled from the spec: async.parallel of the third-party async
    package, for the two tasks of [_get].  It waits for both tasks; the
    first error is handed to the callback and later completions are
    ignored; on joint success the callback gets the two results. *)
Inductive Par (Template : Type) : Type :=
  | ParWaiting
  | ParMain (tmpl : Template)
  | ParPartials (ps : gmap string (JsTmpl Template))
  | ParDone
  | ParFailed.
Arguments ParWaiting {Template}.
Arguments ParMain {Template} tmpl.
Arguments ParPartials {Template} ps.
Arguments ParDone {Template}.
Arguments ParFailed {Template}.

(** Process-wide state: memory-cache, the Handlebars registry, the options
    objects that callers hold references to, and the observations. *)
Record Global (Helper Template Err : Type) : Type := mkGlobal {
  cache : gmap string Template;
  registry : Registry Template Helper;
  heap : list (Options Helper);
  trace : list (Obs Err);
}.
Arguments mkGlobal {Helper Template Err}.
Arguments cache {Helper Template Err}.
Arguments registry {Helper Template Err}.
Arguments heap {Helper Template Err}.
Arguments trace {Helper Template Err}.

(** One activation of [renderFile]: its parameters (which its callback
    closes over), the state of the async.parallel join and of the async.each
    join inside async.mapObj, the [result] object of async.mapObj, the
    callbacks of this activation that wait in the event loop, the calls
    made to the caller's callback, and the exceptions that left its code. *)
Record Call (Data Template EngineErr Err : Type) : Type := mkCall {
  rf_data : Data;
  rf_opts : nat;
  rf_callback : option CbId;
  par : Par Template;
  each_total : nat;
  each_completed : nat;
  each_live : bool;
  result : gmap string (JsTmpl Template);
  pending : list (Event Template);
  delivered : list (Err + string);
  raised : list (Exn EngineErr);
}.
Arguments mkCall {Data Template EngineErr Err}.
Arguments rf_data {Data Template EngineErr Err}.
Arguments rf_opts {Data Template EngineErr Err}.
Arguments rf_callback {Data Template EngineErr Err}.
Arguments par {Data Template EngineErr Err}.
Arguments each_total {Data Template EngineErr Err}.
Arguments each_completed {Data Template EngineErr Err}.
Arguments each_live {Data Template EngineErr Err}.
Arguments result {Data Template EngineErr Err}.
Arguments pending {Data Template EngineErr Err}.
Arguments delivered {Data Template EngineErr Err}.
Arguments raised {Data Template EngineErr Err}.

Section Ducktail.
Context {Data Helper Template EngineErr Err : Type}.
Local Abbreviation Registry := (Registry Template Helper).
Local Abbreviation TmplOpts := (TmplOpts Template Helper).
Local Abbreviation Exn := (Exn EngineErr).
Local Abbreviation Options := (Options Helper).
Local Abbreviation Global := (Global Helper Template Err).
Local Abbreviation Call := (Call Data Template EngineErr Err).
Local Abbreviation Event := (Event Template).
Local Abbreviation St := (Global * Call)%type.
Local Abbreviation JsTmpl := (JsTmpl Template).

Variable compile : string → EngineErr + Template.
Variable invoke : Template → Registry → Data → EngineErr + string.

(** The file system reader: what fs.readFile hands to its callback for a
    path, an error or the text. *)
Variable readFile : string → Err + string.

(** **** Field updates *)

Definition set_cache (f : gmap string Template → gmap string Template)
    (g : Global) : Global :=
  mkGlobal (f (cache g)) (registry g) (heap g) (trace g).
Definition set_registry (r : Registry) (g : Global) : Global :=
  mkGlobal (cache g) r (heap g) (trace g).
Definition set_heap (f : list Options → list Options) (g : Global) : Global :=
  mkGlobal (cache g) (registry g) (f (heap g)) (trace g).
Definition observe (o : Obs Err) (g : Global) : Global :=
  mkGlobal (cache g) (registry g) (heap g) (o :: trace g).

Definition set_par (p : Par Template) (c : Call) : Call :=
  mkCall (rf_data c) (rf_opts c) (rf_callback c) p (each_total c)
    (each_completed c) (each_live c) (result c) (pending c) (delivered c)
    (raised c).
Definition set_each (total completed : nat) (live : bool) (c : Call) : Call :=
  mkCall (rf_data c) (rf_opts c) (rf_callback c) (par c) total completed live
    (result c) (pending c) (delivered c) (raised c).
Definition set_result (r : gmap string JsTmpl) (c : Call) : Call :=
  mkCall (rf_data c) (rf_opts c) (rf_callback c) (par c) (each_total c)
    (each_completed c) (each_live c) r (pending c) (delivered c) (raised c).
Definition set_pending (l : list Event) (c : Call) : Call :=
  mkCall (rf_data c) (rf_opts c) (rf_callback c) (par c) (each_total c)
    (each_completed c) (each_live c) (result c) l (delivered c) (raised c).
Definition set_delivered (l : list (Err + string)) (c : Call) : Call :=
  mkCall (rf_data c) (rf_opts c) (rf_callback c) (par c) (each_total c)
    (each_completed c) (each_live c) (result c) (pending c) l (raised c).
Definition set_raised (l : list Exn) (c : Call) : Call :=
  mkCall (rf_data c) (rf_opts c) (rf_callback c) (par c) (each_total c)
    (each_completed c) (each_live c) (result c) (pending c) (delivered c) l.

Definition on_global (f : Global → Global) : M Exn St unit :=
  modify (λ s, (f s.1, s.2)).
Definition on_call (f : Call → Call) : M Exn St unit :=
  modify (λ s, (s.1, f s.2)).

(** process.nextTick(f) and fs.readFile(path, ..., f): [f] joins the
    callbacks that wait in the event loop. *)
Definition schedule (ev : Event) : M Exn St unit :=
  on_call (λ c, set_pending (pending c ++ [ev]) c).

(** **** The caller's callback and the callback of [renderFile] *)

(** [callback(err)] and [callback(null, contents)].  Calling [undefined]
    raises. *)
Definition call_callback (outcome : Err + string) : M Exn St unit :=
  cb ← gets (λ s, rf_callback s.2);
  match cb with
  | None => throw TypeError
  | Some _ => on_call (λ c, set_delivered (delivered c ++ [outcome]) c)
  end.

(** [opts.helpers], read when the callback of [renderFile] runs. *)
Definition opts_helpers : M Exn St (option (gmap string Helper)) :=
  o ← gets (λ s, heap s.1 !! rf_opts s.2);
  match o with
  | None => throw TypeError
  | Some o => mret (opt_helpers o)
  end.

(** The [function (err, results)] that [renderFile] passes to [_get]. *)
Definition renderFile_callback
    (r : Err + (Template * gmap string JsTmpl)) : M Exn St unit :=
  match r with
  | inl err => call_callback (inl err)
  | inr (tmpl, ps) =>
      data ← gets (λ s, rf_data s.2);
      hs ← opts_helpers;
      contents ← zoom (λ s : St, registry s.1)
                      (λ r s, (set_registry r s.1, s.2))
                      (renderTmpl compile invoke (Compiled tmpl) data
                         (Some (mkTmplOpts (Some ps) hs)));
      call_callback (inr contents)
  end.

Local Abbreviation GetCallback :=
  (Err + (Template * gmap string JsTmpl) → M Exn St unit).

(** **** The joins of the async package *)

(** The [function (err, result)] that async.parallel hands to its first
    task, [async.apply(ducktail._getTmpl, tmplPath)]. *)
Definition parallel_task0 (callback : GetCallback) (r : Err + Template)
    : M Exn St unit :=
  p ← gets (λ s, par s.2);
  match p, r with
  | ParWaiting, inr tmpl => on_call (set_par (ParMain tmpl))
  | ParPartials ps, inr tmpl =>
      on_call (set_par ParDone);; callback (inr (tmpl, ps))
  | ParWaiting, inl err | ParPartials _, inl err =>
      callback (inl err);; on_call (set_par ParFailed)
  | _, _ => mret tt
  end.

(** The one it hands to its second task,
    [async.apply(ducktail._getPartials, partials)]. *)
Definition parallel_task1 (callback : GetCallback) (err : option Err)
    (ps : gmap string JsTmpl) : M Exn St unit :=
  p ← gets (λ s, par s.2);
  match p, err with
  | ParWaiting, None => on_call (set_par (ParPartials ps))
  | ParMain tmpl, None =>
      on_call (set_par ParDone);; callback (inr (tmpl, ps))
  | ParWaiting, Some e | ParMain _, Some e =>
      callback (inl e);; on_call (set_par ParFailed)
  | _, _ => mret tt
  end.

(** Modelled from the spec: async.each of the third-party async package.
    With no element it calls back at once; otherwise it starts the
    iterator on every element and joins when all have completed or any has
    failed: an error goes to the callback, which is then replaced by a
    function that does nothing; the last success calls back. *)
Definition each_done (callback : option Err → M Exn St unit)
    (err : option Err) : M Exn St unit :=
  match err with
  | Some e =>
      live ← gets (λ s, each_live s.2);
      (if live : bool then callback (Some e) else mret tt);;
      on_call (λ c, set_each (each_total c) (each_completed c) false c)
  | None =>
      on_call (λ c, set_each (each_total c) (S (each_completed c))
                      (each_live c) c);;
      c ← gets snd;
      if decide (each_total c ≤ each_completed c)
      then (if each_live c then callback None else mret tt)
      else mret tt
  end.

Definition async_each {A} (arr : list A) (iterator : A → M Exn St unit)
    (callback : option Err → M Exn St unit) : M Exn St unit :=
  match arr with
  | [] => callback None
  | _ => on_call (set_each (length arr) 0 true);; forM_ arr iterator
  end.

(** **** lib/async.js *)

(** The [function (err) { callback(err, result); }] of async.mapObj. *)
Definition mapObj_callback
    (callback : option Err → gmap string JsTmpl → M Exn St unit)
    (err : option Err) : M Exn St unit :=
  res ← gets (λ s, result s.2);
  callback err res.

(** The [function (err, val) { result[key] = val; next(err); }] of
    async.mapObj; [val] is undefined when the iterator calls back with an
    error only. *)
Definition mapObj_next
    (callback : option Err → gmap string JsTmpl → M Exn St unit)
    (key : string) (r : Err + Template) : M Exn St unit :=
  let val := match r with inl _ => Undefined | inr tmpl => Fn tmpl end in
  let err := match r with inl e => Some e | inr _ => None end in
  on_call (λ c, set_result (<[key := val]> (result c)) c);;
  each_done (mapObj_callback callback) err.

(** async.mapObj.  [Object.keys(undefined)] raises. *)
Definition mapObj {V} (obj : option (gmap string V))
    (iterator : V → string → Cont → M Exn St unit)
    (callback : option Err → gmap string JsTmpl → M Exn St unit)
    : M Exn St unit :=
  on_call (set_result ∅);;
  match obj with
  | None => throw TypeError
  | Some obj =>
      async_each (map_to_list obj)
        (λ kv, iterator kv.2 kv.1 (KPartial kv.1))
        (mapObj_callback callback)
  end.

(** **** lib/ducktail.js, private part *)

(** Modelled from the spec: the memory-cache package, [get] (absent is
    null), [put] (insert or overwrite) and [clear]. *)
Definition cache_get (key : string) : M Exn St (option Template) :=
  gets (λ s, cache s.1 !! key).
Definition cache_put (key : string) (value : Template) : M Exn St unit :=
  on_global (set_cache <[key := value]>).
Definition cache_clear (g : Global) : Global :=
  observe CacheClear (set_cache (λ _, ∅) g).

(** ducktail._returnCached *)
Definition _returnCached (tmpl : Template) (callback : Cont)
    : M Exn St unit :=
  schedule (Tick tmpl callback).

(** ducktail._returnRead *)
Definition _returnRead (tmplPath : string) (callback : Cont)
    : M Exn St unit :=
  on_global (observe (ReadCall tmplPath));;
  schedule (Read tmplPath callback).

(** ducktail._getTmpl.  A cached value is a compiled template, a function,
    which is truthy. *)
Definition _getTmpl (tmplPath : string) (callback : Cont) : M Exn St unit :=
  tmpl ← cache_get tmplPath;
  match tmpl with
  | Some tmpl => _returnCached tmpl callback
  | None => _returnRead tmplPath callback
  end.

(** ducktail._getPartials *)
Definition _getPartials (partials : option (gmap string string))
    (callback : option Err → gmap string JsTmpl → M Exn St unit)
    : M Exn St unit :=
  mapObj partials (λ tmplPath name next, _getTmpl tmplPath next) callback.

(** ducktail._get *)
Definition _get (tmplPath : string) (partials : option (gmap string string))
    (callback : GetCallback) : M Exn St unit :=
  on_call (set_par ParWaiting);;
  _getTmpl tmplPath KMain;;
  _getPartials partials (parallel_task1 callback).

(** Calling a callback that was handed to [_getTmpl]. *)
Definition apply_cont (callback : GetCallback) (k : Cont)
    (r : Err + Template) : M Exn St unit :=
  match k with
  | KMain => parallel_task0 callback r
  | KPartial key => mapObj_next (parallel_task1 callback) key r
  end.

(** ducktail._cache *)
Definition _cache (callback : GetCallback) (tmplPath tmpl : string)
    (k : Cont) : M Exn St unit :=
  compiled ← Handlebars_compile compile tmpl;
  cache_put tmplPath compiled;;
  apply_cont callback k (inr compiled).

(** The [function (err, tmpl)] that [_returnRead] gives to fs.readFile. *)
Definition readFile_callback (callback : GetCallback) (tmplPath : string)
    (k : Cont) (r : Err + string) : M Exn St unit :=
  on_global (observe (ReadDone tmplPath r));;
  match r with
  | inl err => apply_cont callback k (inl err)
  | inr tmpl => _cache callback tmplPath tmpl k
  end.

(** Running a callback that waits in the event loop. *)
Definition fire (callback : GetCallback) (ev : Event) : M Exn St unit :=
  match ev with
  | Tick tmpl k => apply_cont callback k (inr tmpl)
  | Read tmplPath k => readFile_callback callback tmplPath k (readFile tmplPath)
  end.

(** **** lib/ducktail.js, public api *)

(** The variables of a fresh activation of [renderFile]. *)
Definition new_call (data : Data) (opts : nat) (callback : option CbId)
    : Call :=
  mkCall data opts callback ParWaiting 0 0 true ∅ [] [] [].

(** [opts.partials] *)
Definition opts_partials : M Exn St (option (gmap string string)) :=
  o ← gets (λ s, heap s.1 !! rf_opts s.2);
  match o with
  | None => throw TypeError
  | Some o => mret (opt_partials o)
  end.

(** ducktail.renderFile: the body, run on the fresh activation. *)
Definition renderFile_body (tmplPath : string) : M Exn St unit :=
  ps ← opts_partials;
  _get tmplPath ps renderFile_callback.

(** ducktail.renderFile *)
Definition renderFile (tmplPath : string) (data : Data) (opts : nat)
    (callback : option CbId) (g : Global) : St * (Exn + unit) :=
  renderFile_body tmplPath (g, new_call data opts callback).

(** ducktail.render, its argument handling: the result is the options
    object and the callback that go to [renderFile].  [opts = {}] makes a
    new object; the two assignments write into the object that [opts]
    refers to.  A property access on null or undefined raises (a reference
    to no object stands for the same). *)
Definition render_args (opts : OptsArg) (callback : option CbId)
    : M Exn Global (nat * option CbId) :=
  '(opts, callback) ←
    match opts with
    | OptsFn f =>
        o ← gets (λ g, length (heap g));
        modify (set_heap (λ h, h ++ [mkOptions None None]));;
        mret (Some o, Some f)
    | OptsObj o => mret (Some o, callback)
    | OptsNull => mret (None, callback)
    end;
  match opts with
  | None => throw TypeError
  | Some o =>
      obj ← gets (λ g, heap g !! o);
      match obj with
      | None => throw TypeError
      | Some obj =>
          let obj := mkOptions (Some (default ∅ (opt_partials obj)))
                       (opt_helpers obj) in
          modify (set_heap <[o := obj]>);;
          let obj := mkOptions (opt_partials obj)
                       (Some (default ∅ (opt_helpers obj))) in
          modify (set_heap <[o := obj]>);;
          mret (o, callback)
      end
  end.

(** ducktail.render: no activation of [renderFile] exists when the argument
    handling raises. *)
Definition render (tmplPath : string) (data : Data) (opts : OptsArg)
    (callback : option CbId) (g : Global)
    : Global * option Call * (Exn + unit) :=
  match render_args opts callback g with
  | (g, inl e) => (g, None, inl e)
  | (g, inr (opts, callback)) =>
      let '((g, c), r) := renderFile tmplPath data opts callback g in
      (g, Some c, r)
  end.

(** ducktail.clearCache *)
Definition clearCache (g : Global) : Global := cache_clear g.

(** **** The process *)

Record World : Type := mkWorld {
  glob : Global;
  calls : list Call;
}.

(** What can happen next: a caller calls the public api, builds or changes
    an options object, or the event loop runs a waiting callback
    ([Fire c i]: the [i]-th of activation [c]). *)
Inductive Label : Type :=
  | CallRender (tmplPath : string) (data : Data) (opts : OptsArg)
      (callback : option CbId)
  | CallRenderFile (tmplPath : string) (data : Data) (opts : nat)
      (callback : option CbId)
  | CallRenderTmpl (tmpl : TmplArg Template) (data : Data)
      (opts : option TmplOpts)
  | CallClearCache
  | NewObject (obj : Options)
  | SetObject (o : nat) (obj : Options)
  | Fire (c i : nat).

(** An exception that leaves the code of an activation is recorded there. *)
Definition note (r : Exn + unit) (c : Call) : Call :=
  match r with
  | inl e => set_raised (raised c ++ [e]) c
  | inr _ => c
  end.

Definition step (l : Label) (w : World) : World :=
  match l with
  | CallRender tmplPath data opts callback =>
      match render tmplPath data opts callback (glob w) with
      | (g, Some c, r) => mkWorld g (calls w ++ [note r c])
      | (g, None, _) => mkWorld g (calls w)
      end
  | CallRenderFile tmplPath data opts callback =>
      let '((g, c), r) := renderFile tmplPath data opts callback (glob w) in
      mkWorld g (calls w ++ [note r c])
  | CallRenderTmpl tmpl data opts =>
      let '(r, _) := renderTmpl compile invoke tmpl data opts
                       (registry (glob w)) in
      mkWorld (set_registry r (glob w)) (calls w)
  | CallClearCache => mkWorld (clearCache (glob w)) (calls w)
  | NewObject obj => mkWorld (set_heap (λ h, h ++ [obj]) (glob w)) (calls w)
  | SetObject o obj => mkWorld (set_heap <[o := obj]> (glob w)) (calls w)
  | Fire c i =>
      match calls w !! c with
      | None => w
      | Some cl =>
          match pending cl !! i with
          | None => w
          | Some ev =>
              let '((g, cl'), r) :=
                fire renderFile_callback ev
                  (glob w, set_pending (delete i (pending cl)) cl) in
              mkWorld g (<[c := note r cl']> (calls w))
          end
      end
  end.

Definition run (ls : list Label) (w : World) : World :=
  foldl (λ w l, step l w) w ls.
End Ducktail.

End ducktail.

Export ducktail.

(** ** ducktail.js (early variant)

    The first version of the file: no partials, no helpers, and the cache
    holds the text of the file, which is compiled at every render. *)

Module Early.

Inductive Event : Type :=
  | Tick (tmpl : string)
  | Read (tmplPath : string).

Record Global (Helper Template Err : Type) : Type := mkGlobal {
  cache : gmap string string;
  registry : Registry Template Helper;
  trace : list (Obs Err);
}.
Arguments mkGlobal {Helper Template Err}.
Arguments cache {Helper Template Err}.
Arguments registry {Helper Template Err}.
Arguments trace {Helper Template Err}.

(** One activation of [render]. *)
Record Call (Data EngineErr Err : Type) : Type := mkCall {
  r_data : Data;
  r_callback : option CbId;
  pending : list Event;
  delivered : list (Err + string);
  raised : list (Exn EngineErr);
}.
Arguments mkCall {Data EngineErr Err}.
Arguments r_data {Data EngineErr Err}.
Arguments r_callback {Data EngineErr Err}.
Arguments pending {Data EngineErr Err}.
Arguments delivered {Data EngineErr Err}.
Arguments raised {Data EngineErr Err}.

Section Ducktail.
Context {Data Helper Template EngineErr Err : Type}.
Local Abbreviation Registry := (Registry Template Helper).
Local Abbreviation Exn := (Exn EngineErr).
Local Abbreviation Global := (Global Helper Template Err).
Local Abbreviation Call := (Call Data EngineErr Err).
Local Abbreviation St := (Global * Call)%type.

Variable compile : string → EngineErr + Template.
Variable invoke : Template → Registry → Data → EngineErr + string.
Variable readFile : string → Err + string.

Definition set_cache (f : gmap string string → gmap string string)
    (g : Global) : Global :=
  mkGlobal (f (cache g)) (registry g) (trace g).
Definition set_registry (r : Registry) (g : Global) : Global :=
  mkGlobal (cache g) r (trace g).
Definition observe (o : Obs Err) (g : Global) : Global :=
  mkGlobal (cache g) (registry g) (o :: trace g).
Definition set_pending (l : list Event) (c : Call) : Call :=
  mkCall (r_data c) (r_callback c) l (delivered c) (raised c).
Definition set_delivered (l : list (Err + string)) (c : Call) : Call :=
  mkCall (r_data c) (r_callback c) (pending c) l (raised c).

(** JavaScript truthiness of a string: the empty string is falsy. *)
Definition truthy (s : string) : bool :=
  match s with
  | EmptyString => false
  | _ => true
  end.

Definition call_callback (outcome : Err + string) : M Exn St unit :=
  cb ← gets (λ s, r_callback s.2);
  match cb with
  | None => throw TypeError
  | Some _ => modify (λ s, (s.1, set_delivered (delivered s.2 ++ [outcome]) s.2))
  end.

(** ducktail._render: [Handlebars.compile(tmpl)(data)] *)
Definition _render (tmpl : string) (data : Data) : M Exn Registry string :=
  t ← Handlebars_compile compile tmpl;
  call_tmpl invoke t data.

(** [callback(null, ducktail._render(tmpl, data))] *)
Definition render_and_call_back (tmpl : string) : M Exn St unit :=
  data ← gets (λ s, r_data s.2);
  contents ← zoom (λ s : St, registry s.1)
                  (λ r s, (set_registry r s.1, s.2)) (_render tmpl data);
  call_callback (inr contents).

(** ducktail.render *)
Definition render (tmplPath : string) (data : Data)
    (callback : option CbId) (g : Global) : St :=
  let c := mkCall data callback [] [] [] in
  match cache g !! tmplPath with
  | Some tmpl =>
      if truthy tmpl then (g, set_pending [Tick tmpl] c)
      else (observe (ReadCall tmplPath) g, set_pending [Read tmplPath] c)
  | None => (observe (ReadCall tmplPath) g, set_pending [Read tmplPath] c)
  end.

(** Running a callback that waits in the event loop: the function given
    to process.nextTick, or the one given to fs.readFile. *)
Definition fire (ev : Event) : M Exn St unit :=
  match ev with
  | Tick tmpl => render_and_call_back tmpl
  | Read tmplPath =>
      modify (λ s, (observe (ReadDone tmplPath (readFile tmplPath)) s.1, s.2));;
      match readFile tmplPath with
      | inl err => call_callback (inl err)
      | inr tmpl =>
          modify (λ s, (set_cache <[tmplPath := tmpl]> s.1, s.2));;
          render_and_call_back tmpl
      end
  end.

(** ducktail.clearCache *)
Definition clearCache (g : Global) : Global :=
  observe CacheClear (set_cache (λ _, ∅) g).
End Ducktail.
End Early.

(** ** Sample data

    A small engine and file system on which the functions above can be
    evaluated: a compiled template is its source text, the text ["{{"] does
    not compile, the template ["{{boom}}"] raises when it runs,
    ["{{> partial}}"] renders the partial of that name, ["{{title}}"]
    renders the data. *)

Module Sample.

Definition compile (src : string) : string + string :=
  if decide (src = "{{") then inl "Parse error" else inr src.

Definition invoke (tmpl : string) (r : Registry string string)
    (data : string) : string + string :=
  if decide (tmpl = "{{boom}}") then inl "boom"
  else if decide (tmpl = "{{> partial}}") then
    match reg_partials r !! "partial" with
    | Some (Fn p) => inr p
    | _ => inl "The partial partial could not be found"
    end
  else if decide (tmpl = "{{title}}") then inr data
  else inr tmpl.

Definition readFile (path : string) : string + string :=
  if decide (path = "tmpl.hbs") then inr "{{title}}"
  else if decide (path = "with-partial.hbs") then inr "{{> partial}}"
  else if decide (path = "partial.hbs") then inr "Partial"
  else if decide (path = "boom.hbs") then inr "{{boom}}"
  else if decide (path = "broken.hbs") then inr "{{"
  else inl "ENOENT".

Definition empty_registry : Registry string string := mkRegistry ∅ ∅.

Definition fresh : Global string string string :=
  mkGlobal ∅ empty_registry [] [].

Definition start : @World string string string string string :=
  mkWorld fresh [].

Definition early_fresh : Early.Global string string string :=
  Early.mkGlobal ∅ empty_registry [].

End Sample.

(** ** test/ducktail.js: the helper that the tests register

    [String.prototype.substr(start, length)] for a start that is not
    negative: the characters from [start] on, [length] of them at most,
    fewer where the string ends before. *)

Definition substr (start length : nat) (s : string) : string :=
  String.substring start length s.

(** [helpers.formatPhone], on the string that [toString] gives. *)
Definition formatPhone (phoneNumber : string) : string :=
  "(" +:+ substr 0 3 phoneNumber +:+ ") " +:+ substr 3 3 phoneNumber
      +:+ "-" +:+ substr 6 4 phoneNumber.

(** Further sample data: a file system with an empty file beside the
    sample files, the partials of the tests, a process in which the caller
    holds one options object, and one in which a render of tmpl.hbs waits
    for its read. *)
Module Fixtures.

Definition readFile (path : string) : string + string :=
  if decide (path = "empty.hbs") then inr "" else Sample.readFile path.

Definition partials : gmap string string := {["partial" := "partial.hbs"]}.

Definition with_options (obj : Options string)
    : @World string string string string string :=
  mkWorld (mkGlobal ∅ Sample.empty_registry [obj] []) [].

Definition waiting : Call string string string string :=
  mkCall "Title" 0 (Some 7) (ParPartials ∅) 0 0 true ∅
    [Read "tmpl.hbs" KMain] [] [].

Definition rendering : @World string string string string string :=
  mkWorld
    (mkGlobal ∅ Sample.empty_registry [mkOptions (Some ∅) (Some ∅)]
       [ReadCall "tmpl.hbs"])
    [waiting].

Definition cached : @World string string string string string :=
  mkWorld
    (mkGlobal {["tmpl.hbs" := "{{title}}"]} Sample.empty_registry [] [])
    [].

Definition early_cached : Early.Global string string string :=
  Early.mkGlobal {["tmpl.hbs" := "{{title}}"]} Sample.empty_registry [].

End Fixtures.

(** ** Vocabulary of the results *)

(** What the lookup behind a waiting callback comes to when it fires: the
    read fails, the compilation of the text raises, or there is a compiled
    template (the cached one, or the one compiled from the text read). *)
Inductive Loaded (Template EngineErr Err : Type) : Type :=
  | LoadErr (e : Err)
  | LoadRaise (x : EngineErr)
  | LoadOk (t : Template).
Arguments LoadErr {Template EngineErr Err} e.
Arguments LoadRaise {Template EngineErr Err} x.
Arguments LoadOk {Template EngineErr Err} t.

Section Vocabulary.
Context {Data Helper Template EngineErr Err : Type}.
Local Abbreviation Global := (Global Helper Template Err).
Local Abbreviation Call := (Call Data Template EngineErr Err).
Local Abbreviation Event := (Event Template).
Local Abbreviation Loaded := (Loaded Template EngineErr Err).

Local Abbreviation Registry := (Registry Template Helper).
Local Abbreviation Exn := (Exn EngineErr).
Local Abbreviation St := (Global * Call)%type.

Variable compile : string → EngineErr + Template.
Variable invoke : Template → Registry → Data → EngineErr + string.
Variable readFile : string → Err + string.

Definition ev_cont (ev : Event) : Cont :=
  match ev with
  | Tick _ k => k
  | Read _ k => k
  end.

(** The callback that [_getTmpl] leaves in the event loop. *)
Definition lookup_event (g : Global) (tmplPath : string) (k : Cont) : Event :=
  match cache g !! tmplPath with
  | Some tmpl => Tick tmpl k
  | None => Read tmplPath k
  end.

(** The observation that [_getTmpl] adds: a read, on a cache miss. *)
Definition lookup_obs (g : Global) (tmplPath : string) : list (Obs Err) :=
  match cache g !! tmplPath with
  | Some _ => []
  | None => [ReadCall tmplPath]
  end.

Definition load_of (ev : Event) : Loaded :=
  match ev with
  | Tick tmpl _ => LoadOk tmpl
  | Read tmplPath _ =>
      match readFile tmplPath with
      | inl e => LoadErr e
      | inr src =>
          match compile src with
          | inl x => LoadRaise x
          | inr t => LoadOk t
          end
      end
  end.

(** The process-wide state after the lookup part of a waiting callback:
    a completed read is observed, and a text that compiles is cached. *)
Definition after_load (ev : Event) (g : Global) : Global :=
  match ev with
  | Tick _ _ => g
  | Read tmplPath _ =>
      let g := observe (ReadDone tmplPath (readFile tmplPath)) g in
      match load_of ev with
      | LoadOk t => set_cache <[tmplPath := t]> g
      | _ => g
      end
  end.

(** Two states of an activation that differ in the joins and the waiting
    callbacks only. *)
Definition join_only (c c' : Call) : Prop :=
  rf_data c' = rf_data c ∧ rf_opts c' = rf_opts c ∧
  rf_callback c' = rf_callback c ∧ delivered c' = delivered c ∧
  raised c' = raised c.

Definition settled (p : Par Template) : Prop := p = ParDone ∨ p = ParFailed.

(** The waiting callbacks of the partials still to be fetched. *)
Definition pending_of (todo : gmap string Event) : list Event :=
  (map_to_list todo).*2.

(** The partials mapping of a joint success: every name has the compiled
    template of its lookup, and there is no other name. *)
Definition mapping_ok (evs : gmap string Event)
    (m : gmap string (JsTmpl Template)) : Prop :=
  dom m = dom evs ∧
  ∀ name ev, evs !! name = Some ev →
    ∃ t, load_of ev = LoadOk t ∧ m !! name = Some (Fn t).

(** An activation in which [_get] is under way: no lookup has failed and
    the callback of [_get] has not been called.  [evm] is the waiting
    callback of the main template, [evs] maps every partial name to the one
    of its lookup, [todo] are those that have not fired. *)
Record Running (evm : Event) (evs todo : gmap string Event) (c : Call)
    : Prop := mkRunning {
  run_main : ev_cont evm = KMain;
  run_conts : ∀ name ev, evs !! name = Some ev → ev_cont ev = KPartial name;
  run_todo : todo ⊆ evs;
  run_each : todo ≠ ∅ →
    each_live c = true ∧ each_total c = size evs ∧
    each_completed c + size todo = size evs;
  run_done : ∀ name ev, evs !! name = Some ev → todo !! name = None →
    ∃ t, load_of ev = LoadOk t ∧ result c !! name = Some (Fn t);
  run_result : ∀ name, is_Some (result c !! name) →
    is_Some (evs !! name) ∧ todo !! name = None;
  run_phase :
    (par c = ParWaiting ∧ todo ≠ ∅ ∧ pending c ≡ₚ evm :: pending_of todo) ∨
    (∃ t, par c = ParMain t ∧ load_of evm = LoadOk t ∧ todo ≠ ∅ ∧
          pending c ≡ₚ pending_of todo) ∨
    (par c = ParPartials (result c) ∧ todo = ∅ ∧ pending c ≡ₚ [evm]);
}.

(** What a computation may do to an activation whatever its state: it
    leaves the parameters, the recorded exceptions and the waiting
    callbacks alone, it changes nothing of a settled join, and it calls the
    caller's callback at most once, and then the join is settled. *)
Definition post {A} (g : Global) (c : Call) (res : St * (Exn + A)) : Prop :=
  let '((g', c'), _) := res in
  cache g' = cache g ∧ trace g' = trace g ∧ heap g' = heap g ∧
  rf_data c' = rf_data c ∧ rf_opts c' = rf_opts c ∧
  rf_callback c' = rf_callback c ∧ raised c' = raised c ∧
  pending c' = pending c ∧
  (settled (par c) → par c' = par c ∧ delivered c' = delivered c) ∧
  (delivered c' = delivered c ∨
   ∃ x, delivered c' = delivered c ++ [x] ∧ settled (par c')).

Definition good {A} (m : M Exn St A) : Prop := ∀ g c, post g c (m (g, c)).

(** What the callback of [renderFile] does: it changes the registry at
    most, and it calls the caller's callback once unless it raises. *)
Definition cb_post (g : Global) (c : Call) (res : St * (Exn + unit)) : Prop :=
  let '((g', c'), r) := res in
  cache g' = cache g ∧ trace g' = trace g ∧ heap g' = heap g ∧
  match r with
  | inl _ => c' = c
  | inr _ => ∃ x, c' = set_delivered (delivered c ++ [x]) c
  end.

Definition at_most_once (c : Call) : Prop :=
  delivered c = [] ∨ (length (delivered c) = 1 ∧ settled (par c)).

(** What the caller's callback gets: the error of one of the lookups, or
    the rendering of the main template with the partials mapping. *)
Definition outcome_ok (evm : Event) (evs : gmap string Event) (c : Call)
    (x : Err + string) : Prop :=
  match x with
  | inl e =>
      ∃ ev, (ev = evm ∨ ∃ name, evs !! name = Some ev) ∧ load_of ev = LoadErr e
  | inr s =>
      ∃ t m hs r r', load_of evm = LoadOk t ∧ mapping_ok evs m ∧
        renderTmpl compile invoke (Compiled t) (rf_data c)
          (Some (mkTmplOpts (Some m) hs)) r = (r', inr s)
  end.

(** The invariant of an activation whose lookups are [evm] and [evs]. *)
Definition tracked (evm : Event) (evs : gmap string Event) (c : Call) : Prop :=
  at_most_once c ∧
  (raised c = [] →
     (delivered c = [] ∧ ∃ todo, Running evm evs todo c) ∨
     (∃ x, delivered c = [x] ∧ settled (par c) ∧ outcome_ok evm evs c x)).

Definition call_ok (c : Call) : Prop := ∃ evm evs, tracked evm evs c.

(** The invariant of an activation whose main template is read from
    [tmplPath], a file that cannot be read, and whose caller gave a
    callback: the read waits and nothing was delivered, or an error was
    delivered, one that satisfies [E]. *)
Definition main_fails (tmplPath : string) (E : Err → Prop) (c : Call) : Prop :=
  is_Some (rf_callback c) ∧
  ((delivered c = [] ∧
    (par c = ParWaiting ∨ ∃ ps, par c = ParPartials ps) ∧
    Read tmplPath KMain ∈ pending c ∧
    ∀ ev, ev ∈ pending c →
      ev = Read tmplPath KMain ∨
      ((∃ name, ev_cont ev = KPartial name) ∧
       ∀ e, load_of ev = LoadErr e → E e)) ∨
   (∃ e, delivered c = [inl e] ∧ par c = ParFailed ∧ E e)).

(** The waiting callbacks that [_get] creates for a partials object. *)
Definition partial_events (g : Global) (ps : gmap string string)
    : gmap string Event :=
  map_imap (λ name tmplPath, Some (lookup_event g tmplPath (KPartial name))) ps.

(** Every cached template is the compilation of a text that a read of its
    path returned after the last cache.clear. *)
Definition cache_ok (g : Global) : Prop :=
  ∀ tmplPath t, cache g !! tmplPath = Some t →
    ∃ src, compile src = inr t ∧
      ReadDone tmplPath (inr src) ∈ since_clear (trace g).

(** The same for the early variant, whose cache holds the text. *)
Definition early_cache_ok (g : Early.Global Helper Template Err) : Prop :=
  ∀ tmplPath src, Early.cache g !! tmplPath = Some src →
    ReadDone tmplPath (inr src) ∈ since_clear (Early.trace g).

(** The waiting callbacks that can still bring their part to a rendering:
    the one of the main template, and those of the partials, whose lookup
    does not raise. *)
Definition main_token (ev : Event) : bool :=
  match ev_cont ev, load_of ev with
  | KMain, LoadRaise _ => false
  | KMain, _ => true
  | KPartial _, _ => false
  end.

Definition partial_token (ev : Event) : bool :=
  match ev_cont ev, load_of ev with
  | KPartial _, LoadRaise _ => false
  | KPartial _, _ => true
  | KMain, _ => false
  end.

(** An activation that has not called back with a rendering and cannot
    come to one: the join has failed, or the main template is not there
    and no callback is left that could bring it, or the callbacks that are
    left are too few to complete the partials. *)
Definition never_succeeds (c : Call) : Prop :=
  (∀ s, inr s ∉ delivered c) ∧
  (par c = ParFailed ∨
   ((par c = ParWaiting ∨ ∃ ps, par c = ParPartials ps) ∧
    ∀ ev, ev ∈ pending c → main_token ev = false) ∨
   ((par c = ParWaiting ∨ ∃ t, par c = ParMain t) ∧
    each_completed c
      + length (filter (λ ev, partial_token ev = true) (pending c))
    < each_total c)).

(** A registry that holds no more than another: every partial and helper
    of the first is one of the second. *)
Definition reg_le (r' r : Registry) : Prop :=
  reg_partials r' ⊆ reg_partials r ∧ reg_helpers r' ⊆ reg_helpers r.

(** A computation that has added nothing to the registry when it
    returns. *)
Definition tidy {A} (m : M Exn St A) : Prop :=
  ∀ g c,
    let '((g', _), res) := m (g, c) in
    match res with
    | inl _ => True
    | inr _ => reg_le (registry g') (registry g)
    end.

(** Every cached template is the compilation of the text that the file
    system has for its path. *)
Definition cache_current (g : Global) : Prop :=
  ∀ tmplPath t, cache g !! tmplPath = Some t →
    ∃ src, readFile tmplPath = inr src ∧ compile src = inr t.
End Vocabulary.

(** * Results *)

(** ** The registry loops *)

Section RegistryFacts.
Context {Template Helper : Type}.
Local Abbreviation Registry := (Registry Template Helper).
Implicit Types r : Registry.

Lemma loop_registerPartial ps r :
  _loop (Some ps) registerPartial r
  = mkRegistry (ps ∪ reg_partials r) (reg_helpers r).
Proof.
  simpl. induction ps as [|k v ps Hk Hfold IH] using map_first_key_ind.
  - rewrite map_fold_empty, (left_id_L ∅ (∪)). by destruct r.
  - rewrite map_fold_insert_first_key by done. rewrite IH.
    unfold registerPartial; simpl. by rewrite insert_union_l.
Qed.

Lemma loop_registerHelper hs r :
  _loop (Some hs) registerHelper r
  = mkRegistry (reg_partials r) (hs ∪ reg_helpers r).
Proof.
  simpl. induction hs as [|k v hs Hk Hfold IH] using map_first_key_ind.
  - rewrite map_fold_empty, (left_id_L ∅ (∪)). by destruct r.
  - rewrite map_fold_insert_first_key by done. rewrite IH.
    unfold registerHelper; simpl. by rewrite insert_union_l.
Qed.

Lemma difference_insert_delete {V} (m ps : gmap string V) k v :
  m ∖ <[k := v]> ps = delete k (m ∖ ps).
Proof.
  apply map_eq; intros j. destruct (decide (k = j)) as [->|Hne].
  - rewrite lookup_delete_eq. apply lookup_difference_None.
    right. rewrite lookup_insert_eq. eauto.
  - rewrite lookup_delete_ne by done.
    rewrite !lookup_difference, lookup_insert_ne by done. done.
Qed.

Lemma loop_unregisterPartial ps r :
  _loop (Some ps) unregisterPartial r
  = mkRegistry (reg_partials r ∖ ps) (reg_helpers r).
Proof.
  simpl. induction ps as [|k v ps Hk Hfold IH] using map_first_key_ind.
  - rewrite map_fold_empty, map_difference_empty. by destruct r.
  - rewrite map_fold_insert_first_key by done. rewrite IH.
    unfold unregisterPartial; simpl. by rewrite difference_insert_delete.
Qed.

Lemma loop_unregisterHelper hs r :
  _loop (Some hs) unregisterHelper r
  = mkRegistry (reg_partials r) (reg_helpers r ∖ hs).
Proof.
  simpl. induction hs as [|k v hs Hk Hfold IH] using map_first_key_ind.
  - rewrite map_fold_empty, map_difference_empty. by destruct r.
  - rewrite map_fold_insert_first_key by done. rewrite IH.
    unfold unregisterHelper; simpl. by rewrite difference_insert_delete.
Qed.

(** An absent collection behaves as an empty one. *)
Lemma loop_default {V} (obj : option (gmap string V)) action r :
  _loop obj action r = _loop (Some (default ∅ obj)) action r.
Proof. destruct obj; simpl; [done|]. by rewrite map_fold_empty. Qed.

Lemma register_spec (opts : TmplOpts Template Helper) r :
  _register opts r
  = mkRegistry (default ∅ (partials opts) ∪ reg_partials r)
      (default ∅ (helpers opts) ∪ reg_helpers r).
Proof.
  unfold _register.
  rewrite (loop_default (helpers opts)), (loop_default (partials opts)).
  by rewrite loop_registerPartial, loop_registerHelper.
Qed.

Lemma unregister_spec (opts : TmplOpts Template Helper) r :
  _unregister opts r
  = mkRegistry (reg_partials r ∖ default ∅ (partials opts))
      (reg_helpers r ∖ default ∅ (helpers opts)).
Proof.
  unfold _unregister.
  rewrite (loop_default (helpers opts)), (loop_default (partials opts)).
  by rewrite loop_unregisterPartial, loop_unregisterHelper.
Qed.

End RegistryFacts.

(** ** renderTmpl *)

Section RenderTmplFacts.
Context {Data Helper Template EngineErr : Type}.
Local Abbreviation Registry := (Registry Template Helper).
Local Abbreviation TmplOpts := (TmplOpts Template Helper).
Variable compile : string → EngineErr + Template.
Variable invoke : Template → Registry → Data → EngineErr + string.
Local Abbreviation renderTmpl := (renderTmpl compile invoke).
Local Abbreviation resolve := (resolve compile).

Lemma renderTmpl_spec tmpl data opts r :
  renderTmpl tmpl data opts r =
    match resolve tmpl with
    | inl e => (r, inl (Raised e))
    | inr t =>
        let opts := default (mkTmplOpts None None) opts in
        match invoke t (_register opts r) data with
        | inl e => (_register opts r, inl (Raised e))
        | inr s => (_unregister opts (_register opts r), inr s)
        end
    end.
Proof.
  unfold ducktail.renderTmpl, Handlebars_compile, call_tmpl, resolve.
  destruct tmpl as [t|src]; simpl.
  - unfold mbind, M_bind, mret, M_ret, modify, gets, throw; simpl.
    by destruct (invoke t _ data).
  - unfold mbind, M_bind, mret, M_ret, modify, gets, throw; simpl.
    destruct (compile src) as [e|t]; [done|].
    by destruct (invoke t _ data).
Qed.

Lemma registered_partial (opts : TmplOpts) r name v :
  default ∅ (partials opts) !! name = Some v →
  reg_partials (_register opts r) !! name = Some v.
Proof. intros H. rewrite register_spec; simpl. by apply lookup_union_Some_l. Qed.

Lemma registered_helper (opts : TmplOpts) r name f :
  default ∅ (helpers opts) !! name = Some f →
  reg_helpers (_register opts r) !! name = Some f.
Proof. intros H. rewrite register_spec; simpl. by apply lookup_union_Some_l. Qed.

Lemma unregistered_partial (opts : TmplOpts) r name :
  is_Some (default ∅ (partials opts) !! name) →
  reg_partials (_unregister opts r) !! name = None.
Proof.
  intros H. rewrite unregister_spec; simpl.
  apply lookup_difference_None. by right.
Qed.

Lemma unregistered_helper (opts : TmplOpts) r name :
  is_Some (default ∅ (helpers opts) !! name) →
  reg_helpers (_unregister opts r) !! name = None.
Proof.
  intros H. rewrite unregister_spec; simpl.
  apply lookup_difference_None. by right.
Qed.

(** C1 (amended): [renderTmpl] runs the template on a registry in which
    every supplied (name, partial) and (name, helper) pair is registered.
    When the template returns, the supplied names are unregistered, so that
    none of them remains in the registry after the call.  When the template
    raises, the exception leaves [renderTmpl] at once: the unregistration
    is not run and the registry stays as the template saw it. *)
Theorem renderTmpl_registers_around_the_call tmpl t data (opts : TmplOpts) r :
  resolve tmpl = inr t →
  let ps := default ∅ (partials opts) in
  let hs := default ∅ (helpers opts) in
  let r1 := _register opts r in
  (∀ name v, ps !! name = Some v → reg_partials r1 !! name = Some v) ∧
  (∀ name f, hs !! name = Some f → reg_helpers r1 !! name = Some f) ∧
  match invoke t r1 data with
  | inr s =>
      ∃ r2, renderTmpl tmpl data (Some opts) r = (r2, inr s) ∧
        (∀ name, is_Some (ps !! name) → reg_partials r2 !! name = None) ∧
        (∀ name, is_Some (hs !! name) → reg_helpers r2 !! name = None)
  | inl e => renderTmpl tmpl data (Some opts) r = (r1, inl (Raised e))
  end.
Proof.
  intros Ht ps hs r1. split; [|split].
  - intros name v. apply registered_partial.
  - intros name f. apply registered_helper.
  - rewrite renderTmpl_spec, Ht; simpl. fold r1.
    destruct (invoke t r1 data) as [e|s]; [done|].
    eexists; split; [done|]. split; intros name.
    + apply unregistered_partial.
    + apply unregistered_helper.
Qed.

(** C9: the unregistration deletes every supplied name from the registry,
    whatever was there: after [_unregister], and so after a call of
    [renderTmpl] that returns, no entry is left under a supplied name, also
    when the registry held one under that name before the call (it is not
    restored).  Names that were not supplied keep their entry. *)
Theorem unregister_removes_unconditionally (opts : TmplOpts) r :
  let ps := default ∅ (partials opts) in
  let hs := default ∅ (helpers opts) in
  ((∀ name, is_Some (ps !! name) →
      reg_partials (_unregister opts r) !! name = None) ∧
   (∀ name, is_Some (hs !! name) →
      reg_helpers (_unregister opts r) !! name = None)) ∧
  ∀ tmpl data r' s,
    renderTmpl tmpl data (Some opts) r = (r', inr s) →
    (∀ name, is_Some (ps !! name) → reg_partials r' !! name = None) ∧
    (∀ name, is_Some (hs !! name) → reg_helpers r' !! name = None) ∧
    (∀ name, ps !! name = None →
       reg_partials r' !! name = reg_partials r !! name) ∧
    (∀ name, hs !! name = None →
       reg_helpers r' !! name = reg_helpers r !! name).
Proof.
  intros ps hs. split.
  { split; intros name; [apply unregistered_partial|apply unregistered_helper]. }
  intros tmpl data r' s. rewrite renderTmpl_spec.
  destruct (resolve tmpl) as [e|t]; [done|]. simpl.
  destruct (invoke t _ data) as [e|s']; [done|].
  intros [= <- <-]. split; [|split; [|split]]; intros name.
  - apply unregistered_partial.
  - apply unregistered_helper.
  - intros Hn. rewrite unregister_spec, register_spec; simpl. fold ps.
    rewrite lookup_difference, Hn. by rewrite lookup_union_r.
  - intros Hn. rewrite unregister_spec, register_spec; simpl. fold hs.
    rewrite lookup_difference, Hn. by rewrite lookup_union_r.
Qed.
End RenderTmplFacts.

(** C1, witness: a template that renders with its partial. *)
Lemma renderTmpl_registers_around_the_call_witness :
  let opts := mkTmplOpts (Some {["partial" := Fn "Partial"]})
                (Some {["formatPhone" := "fn"]}) in
  resolve Sample.compile (Source "{{> partial}}") = inr "{{> partial}}" ∧
  ∃ r2, renderTmpl Sample.compile Sample.invoke (Source "{{> partial}}")
          "Title" (Some opts) Sample.empty_registry = (r2, inr "Partial") ∧
        reg_partials r2 !! "partial" = None.
Proof.
  intros opts. split; [reflexivity|].
  pose proof (renderTmpl_registers_around_the_call Sample.compile
    Sample.invoke (Source "{{> partial}}") "{{> partial}}" "Title" opts
    Sample.empty_registry eq_refl) as (_ & _ & H).
  assert (Sample.invoke "{{> partial}}"
            (_register opts Sample.empty_registry) "Title" = inr "Partial")
    as E by (vm_compute; reflexivity).
  rewrite E in H. destruct H as (r2 & H & Hp & _).
  exists r2. split; [exact H|]. apply Hp. by eexists.
Defined.

(** C1, counterexample: the template raises, and the partial and the
    helper that the call registered are still in the registry after it. *)
Lemma renderTmpl_leaves_names_when_the_template_raises :
  let opts := mkTmplOpts (Some {["partial" := Fn "Partial"]})
                (Some {["formatPhone" := "fn"]}) in
  let '(r, outcome) :=
    renderTmpl Sample.compile Sample.invoke (Compiled "{{boom}}") "Title"
      (Some opts) Sample.empty_registry in
  outcome = inl (Raised "boom") ∧
  reg_partials r !! "partial" = Some (Fn "Partial") ∧
  reg_helpers r !! "formatPhone" = Some "fn".
Proof. vm_compute. done. Qed.

(** C9, witness: the registry holds an older partial under the supplied
    name; the call returns and the name is gone. *)
Lemma unregister_removes_unconditionally_witness :
  let opts := mkTmplOpts (Some {["partial" := Fn "New"]}) None in
  let r := mkRegistry {["partial" := Fn "Old"]} (∅ : gmap string string) in
  ∃ r', renderTmpl Sample.compile Sample.invoke (Compiled "{{> partial}}")
          "Title" (Some opts) r = (r', inr "New") ∧
        reg_partials r !! "partial" = Some (Fn "Old") ∧
        reg_partials r' !! "partial" = None.
Proof.
  intros opts r.
  destruct (renderTmpl Sample.compile Sample.invoke (Compiled "{{> partial}}")
              "Title" (Some opts) r) as [r' out] eqn:E.
  assert (out = inr "New") as -> by (vm_compute in E; congruence).
  exists r'. split; [done|]. split; [done|].
  pose proof (unregister_removes_unconditionally Sample.compile Sample.invoke
    opts r) as [_ H].
  destruct (H _ _ _ _ E) as (Hp & _). apply Hp. by eexists.
Defined.
(** ** The early variant *)

Section EarlyFacts.
Context {Data Helper Template EngineErr Err : Type}.
Local Abbreviation Registry := (Registry Template Helper).
Local Abbreviation Exn := (Exn EngineErr).
Local Abbreviation EGlobal := (Early.Global Helper Template Err).
Local Abbreviation ECall := (Early.Call Data EngineErr Err).
Variable compile : string → EngineErr + Template.
Variable invoke : Template → Registry → Data → EngineErr + string.
Variable readFile : string → Err + string.
Local Abbreviation early_render :=
  (@Early.render Data Helper Template EngineErr Err).
Local Abbreviation early_fire :=
  (@Early.fire Data Helper Template EngineErr Err compile invoke readFile).
Local Abbreviation early_clearCache := (@Early.clearCache Helper Template Err).
Implicit Types (g : EGlobal) (c : ECall).

Ltac eunfold :=
  unfold mbind, M_bind, mret, M_ret, gets, modify, throw, zoom.

(** The event that [render] leaves in the event loop. *)
Lemma early_render_spec tmplPath data callback g :
  ∃ ev, early_render tmplPath data callback g
        = (match ev with
           | Early.Tick _ => g
           | Early.Read _ => Early.observe (ReadCall tmplPath) g
           end,
           Early.mkCall data callback [ev] [] []) ∧
    match ev with
    | Early.Tick tmpl =>
        Early.cache g !! tmplPath = Some tmpl ∧ Early.truthy tmpl = true
    | Early.Read p =>
        p = tmplPath ∧
        (Early.cache g !! tmplPath = None ∨
         ∃ tmpl, Early.cache g !! tmplPath = Some tmpl ∧
                 Early.truthy tmpl = false)
    end.
Proof.
  unfold Early.render.
  destruct (Early.cache g !! tmplPath) as [tmpl|] eqn:Hc.
  - destruct (Early.truthy tmpl) eqn:Ht.
    + by exists (Early.Tick tmpl).
    + exists (Early.Read tmplPath). repeat split; eauto.
  - exists (Early.Read tmplPath). repeat split; eauto.
Qed.

(** [_render] reads the registry and leaves it as it is. *)
Lemma early__render_registry tmpl data (r : Registry) :
  (Early._render compile invoke tmpl data r).1 = r.
Proof.
  unfold Early._render, Handlebars_compile, call_tmpl. eunfold; simpl.
  destruct (compile tmpl) as [e|t]; simpl; [done|].
  by destruct (invoke t r data).
Qed.

Lemma early_render_and_call_back tmpl g c :
  let '((g', c'), r) :=
    Early.render_and_call_back compile invoke tmpl (g, c) in
  g' = g ∧ Early.r_data c' = Early.r_data c ∧
  Early.r_callback c' = Early.r_callback c ∧
  Early.pending c' = Early.pending c ∧ Early.raised c' = Early.raised c ∧
  match r with
  | inl _ => Early.delivered c' = Early.delivered c
  | inr _ => ∃ s, Early.delivered c' = Early.delivered c ++ [inr s]
  end.
Proof.
  unfold Early.render_and_call_back, Early.call_callback. eunfold; simpl.
  pose proof (early__render_registry tmpl (Early.r_data c) (Early.registry g))
    as Hreg.
  destruct (Early._render _ _ _ _ _) as [r [e|s]]; simpl in *; subst r.
  { split; [by destruct g|]. by repeat split. }
  destruct (Early.r_callback c) eqn:Hcb; simpl.
  - split; [by destruct g|]. do 4 (split; [done|]). eauto.
  - split; [by destruct g|]. by repeat split.
Qed.

(** Firing the event of an activation calls its callback once, unless an
    exception leaves the code; the cache gets the text of a read that
    succeeded, whether it compiles or not. *)
Lemma early_fire_spec ev g c :
  let '((g', c'), r) := early_fire ev (g, c) in
  Early.pending c' = Early.pending c ∧ Early.raised c' = Early.raised c ∧
  Early.registry g' = Early.registry g ∧
  match r with
  | inl _ => Early.delivered c' = Early.delivered c
  | inr _ => ∃ x, Early.delivered c' = Early.delivered c ++ [x]
  end ∧
  match ev with
  | Early.Tick _ => g' = g
  | Early.Read p =>
      Early.trace g' = ReadDone p (readFile p) :: Early.trace g ∧
      match readFile p with
      | inl e =>
          Early.cache g' = Early.cache g ∧
          (r = inr tt → Early.delivered c' = Early.delivered c ++ [inl e])
      | inr src => Early.cache g' = <[p := src]> (Early.cache g)
      end
  end.
Proof.
  destruct ev as [tmpl|p]; simpl.
  - pose proof (early_render_and_call_back tmpl g c) as H.
    destruct (Early.render_and_call_back _ _ _ _) as [[g' c'] r].
    destruct H as (-> & _ & _ & ? & ? & H). do 3 (split; [done|]).
    split; [|done]. destruct r; [done|]. destruct H as [s H]. eauto.
  - unfold Early.fire. eunfold; simpl. destruct (readFile p) as [e|src] eqn:Hr; simpl.
    + unfold Early.call_callback. eunfold; simpl.
      destruct (Early.r_callback c) eqn:Hcb; simpl.
      * do 3 (split; [done|]). split; [eauto|]. by repeat split.
      * by repeat split.
    + pose proof (early_render_and_call_back src
        (Early.set_cache <[p := src]>
           (Early.observe (ReadDone p (inr src)) g)) c) as H.
      destruct (Early.render_and_call_back _ _ _ _) as [[g' c'] r].
      destruct H as (-> & _ & _ & ? & ? & H). do 3 (split; [done|]).
      split; [|done]. destruct r; [done|]. destruct H as [s H]. eauto.
Qed.

Lemma since_clear_cons_elem (o x : Obs Err) tr :
  o ≠ CacheClear → x ∈ since_clear tr → x ∈ since_clear (o :: tr).
Proof. intros Ho Hx. destruct o; simpl; try done; by right. Qed.

Lemma since_clear_head (o : Obs Err) tr :
  o ≠ CacheClear → o ∈ since_clear (o :: tr).
Proof. intros Ho. destruct o; simpl; try done; by left. Qed.

Lemma since_clear_app_elem (x : Obs Err) tr' tr :
  Forall (λ o, is_ReadCall o = true) tr' →
  x ∈ since_clear tr → x ∈ since_clear (tr' ++ tr).
Proof.
  induction 1 as [|o tr' Ho _ IH]; intros Hx; simpl; [done|].
  destruct o; try done. right. by apply IH.
Qed.

Lemma early_render_cache_ok tmplPath data callback g :
  early_cache_ok g → early_cache_ok (early_render tmplPath data callback g).1.
Proof.
  intros Hok. destruct (early_render_spec tmplPath data callback g)
    as (ev & -> & _). destruct ev; simpl; [done|].
  intros p src Hp. apply since_clear_cons_elem; [done|]. by apply Hok.
Qed.

Lemma early_fire_cache_ok ev g c :
  early_cache_ok g → early_cache_ok (early_fire ev (g, c)).1.1.
Proof.
  intros Hok. pose proof (early_fire_spec ev g c) as H.
  destruct (early_fire ev (g, c)) as [[g' c'] r]. simpl.
  destruct H as (_ & _ & _ & _ & H). destruct ev as [tmpl|p]; [by subst|].
  destruct H as [Htr Hc]. intros q src. unfold early_cache_ok in Hok.
  rewrite Htr. destruct (readFile p) as [e|src'] eqn:Hr.
  - destruct Hc as [-> _]. intros Hq.
    apply since_clear_cons_elem; [done|]. by apply Hok.
  - rewrite Hc. destruct (decide (p = q)) as [->|Hne].
    + rewrite lookup_insert_eq. intros [= <-]. by apply since_clear_head.
    + rewrite lookup_insert_ne by done. intros Hq.
      apply since_clear_cons_elem; [done|]. by apply Hok.
Qed.

Lemma early_clearCache_cache_ok g : early_cache_ok (early_clearCache g).
Proof. intros p src. simpl. by rewrite lookup_empty. Qed.
End EarlyFacts.

(** ** The current variant: one callback of the event loop *)

Section DucktailFacts.
Context {Data Helper Template EngineErr Err : Type}.
Local Abbreviation Registry := (Registry Template Helper).
Local Abbreviation Exn := (Exn EngineErr).
Local Abbreviation Global := (Global Helper Template Err).
Local Abbreviation Call := (Call Data Template EngineErr Err).
Local Abbreviation Event := (Event Template).
Local Abbreviation St := (Global * Call)%type.
Local Abbreviation GetCallback :=
  (Err + (Template * gmap string (JsTmpl Template)) → M Exn St unit).
Variable compile : string → EngineErr + Template.
Variable invoke : Template → Registry → Data → EngineErr + string.
Variable readFile : string → Err + string.
Local Abbreviation fire :=
  (@fire Data Helper Template EngineErr Err compile readFile).
Local Abbreviation load_of := (load_of compile readFile).
Local Abbreviation after_load := (after_load compile readFile).
Local Abbreviation Running :=
  (@Running Data Template EngineErr Err compile readFile).
Local Abbreviation mapping_ok :=
  (@mapping_ok Template EngineErr Err compile readFile).
Local Abbreviation renderFile_callback :=
  (@renderFile_callback Data Helper Template EngineErr Err compile invoke).
Local Abbreviation renderTmpl := (renderTmpl compile invoke).
Local Abbreviation outcome_ok :=
  (@outcome_ok Data Helper Template EngineErr Err compile invoke readFile).
Local Abbreviation tracked :=
  (@tracked Data Helper Template EngineErr Err compile invoke readFile).
Local Abbreviation call_ok :=
  (@call_ok Data Helper Template EngineErr Err compile invoke readFile).
Local Abbreviation renderFile :=
  (@renderFile Data Helper Template EngineErr Err compile invoke).
Local Abbreviation render :=
  (@render Data Helper Template EngineErr Err compile invoke).
Local Abbreviation render_args :=
  (@render_args Helper Template EngineErr Err).
Local Abbreviation step :=
  (@step Data Helper Template EngineErr Err compile invoke readFile).
Local Abbreviation run :=
  (@run Data Helper Template EngineErr Err compile invoke readFile).
Local Abbreviation World := (@World Data Helper Template EngineErr Err).
Local Abbreviation cache_ok :=
  (@cache_ok Helper Template EngineErr Err compile).
Local Abbreviation main_fails :=
  (@main_fails Data Template EngineErr Err compile readFile).
Local Abbreviation post := (@post Data Helper Template EngineErr Err).
Local Abbreviation good := (@good Data Helper Template EngineErr Err).
Local Abbreviation cb_post := (@cb_post Data Helper Template EngineErr Err).
Local Arguments ducktail.renderFile_callback : simpl never.
Implicit Types (g : Global) (c : Call) (st : St) (ev : Event) (cb : GetCallback).

Ltac munfold :=
  unfold mbind, M_bind, mret, M_ret, gets, modify, throw, on_call, on_global.

Lemma _getTmpl_spec tmplPath k g c :
  _getTmpl tmplPath k (g, c)
  = ((mkGlobal (cache g) (registry g) (heap g)
        (lookup_obs g tmplPath ++ trace g),
      set_pending (pending c ++ [lookup_event g tmplPath k]) c), inr tt).
Proof.
  unfold _getTmpl, cache_get, _returnCached, _returnRead, schedule,
    lookup_obs, lookup_event.
  munfold; simpl. destruct (cache g !! tmplPath); simpl; [by destruct g|done].
Qed.

Lemma fire_spec cb ev g c :
  fire cb ev (g, c) =
    match load_of ev with
    | LoadErr e => apply_cont cb (ev_cont ev) (inl e) (after_load ev g, c)
    | LoadRaise x => ((after_load ev g, c), inl (Raised x))
    | LoadOk t => apply_cont cb (ev_cont ev) (inr t) (after_load ev g, c)
    end.
Proof.
  destruct ev as [t k|p k]; simpl; [done|].
  unfold readFile_callback, _cache, Handlebars_compile, cache_put.
  munfold; simpl.
  destruct (readFile p) as [e|src]; simpl; [done|].
  destruct (compile src) as [x|t]; simpl; done.
Qed.

Lemma task0_waiting cb t g c :
  par c = ParWaiting →
  parallel_task0 cb (inr t) (g, c) = ((g, set_par (ParMain t) c), inr tt).
Proof. intros H. unfold parallel_task0. munfold; simpl. by rewrite H. Qed.

Lemma task0_partials cb t ps g c :
  par c = ParPartials ps →
  parallel_task0 cb (inr t) (g, c) = cb (inr (t, ps)) (g, set_par ParDone c).
Proof. intros H. unfold parallel_task0. munfold; simpl. by rewrite H. Qed.

Lemma task0_err cb e g c :
  par c = ParWaiting ∨ (∃ ps, par c = ParPartials ps) →
  parallel_task0 cb (inl e) (g, c)
  = (cb (inl e);; on_call (set_par ParFailed)) (g, c).
Proof.
  intros H. unfold parallel_task0. munfold; simpl.
  destruct H as [H|[ps H]]; by rewrite H.
Qed.

Lemma task1_waiting cb ps g c :
  par c = ParWaiting →
  parallel_task1 cb None ps (g, c) = ((g, set_par (ParPartials ps) c), inr tt).
Proof. intros H. unfold parallel_task1. munfold; simpl. by rewrite H. Qed.

Lemma task1_main cb t ps g c :
  par c = ParMain t →
  parallel_task1 cb None ps (g, c) = cb (inr (t, ps)) (g, set_par ParDone c).
Proof. intros H. unfold parallel_task1. munfold; simpl. by rewrite H. Qed.

Lemma task1_err cb e ps g c :
  par c = ParWaiting ∨ (∃ t, par c = ParMain t) →
  parallel_task1 cb (Some e) ps (g, c)
  = (cb (inl e);; on_call (set_par ParFailed)) (g, c).
Proof.
  intros H. unfold parallel_task1. munfold; simpl.
  destruct H as [H|[ps' H]]; by rewrite H.
Qed.

Lemma mapObj_next_err kb name e g c :
  each_live c = true →
  mapObj_next kb name (inl e) (g, c)
  = (kb (Some e) (<[name := Undefined]> (result c));;
     on_call (λ c, set_each (each_total c) (each_completed c) false c))
      (g, set_result (<[name := Undefined]> (result c)) c).
Proof.
  intros H. unfold mapObj_next, each_done, mapObj_callback. munfold; simpl.
  by rewrite H.
Qed.

Lemma mapObj_next_more kb name t g c :
  S (each_completed c) < each_total c →
  mapObj_next kb name (inr t) (g, c)
  = ((g, set_each (each_total c) (S (each_completed c)) (each_live c)
           (set_result (<[name := Fn t]> (result c)) c)), inr tt).
Proof.
  intros H. unfold mapObj_next, each_done, mapObj_callback. munfold; simpl.
  case_decide; [lia|done].
Qed.

Lemma mapObj_next_last kb name t g c :
  each_live c = true → each_total c ≤ S (each_completed c) →
  mapObj_next kb name (inr t) (g, c)
  = kb None (<[name := Fn t]> (result c))
      (g, set_each (each_total c) (S (each_completed c)) true
           (set_result (<[name := Fn t]> (result c)) c)).
Proof.
  intros Hl H. unfold mapObj_next, each_done, mapObj_callback. munfold; simpl.
  case_decide; [|lia]. by rewrite Hl.
Qed.

Lemma pending_of_empty : pending_of (∅ : gmap string Event) = [].
Proof. unfold pending_of. by rewrite map_to_list_empty. Qed.

Lemma pending_of_delete (todo : gmap string Event) name ev :
  todo !! name = Some ev →
  pending_of todo ≡ₚ ev :: pending_of (delete name todo).
Proof.
  intros H. unfold pending_of.
  by rewrite <- (map_to_list_delete _ _ _ H).
Qed.

Lemma elem_of_pending_of (todo : gmap string Event) ev :
  ev ∈ pending_of todo ↔ ∃ name, todo !! name = Some ev.
Proof.
  unfold pending_of. rewrite list_elem_of_fmap. split.
  - intros [[name ev'] [-> H]]. exists name. by apply elem_of_map_to_list.
  - intros [name H]. exists (name, ev). split; [done|].
    by apply elem_of_map_to_list.
Qed.

Lemma pending_of_nonempty (todo : gmap string Event) :
  todo ≠ ∅ → pending_of todo ≠ [].
Proof.
  intros H E. apply H. apply map_to_list_empty_iff.
  unfold pending_of in E. by apply fmap_nil_inv in E.
Qed.

Lemma bind_on_call_assoc {A} (m : M Exn St A) (f1 f2 : Call → Call) st :
  ((m;; on_call f1);; on_call f2) st = (m;; on_call (f2 ∘ f1)) st.
Proof. munfold; simpl. by destruct (m st) as [s [e|a]]. Qed.

Lemma fire_running evm evs todo g c i ev :
  Running evm evs todo c → pending c !! i = Some ev →
  let st0 := (g, set_pending (delete i (pending c)) c) in
  let g' := after_load ev g in
  (∃ t c' todo', load_of ev = LoadOk t ∧
     (∀ cb, fire cb ev st0 = ((g', c'), inr tt)) ∧
     join_only c c' ∧ Running evm evs todo' c') ∨
  (∃ e c' f, load_of ev = LoadErr e ∧
     (ev = evm ∨ ∃ name, evs !! name = Some ev) ∧
     (∀ cb, fire cb ev st0 = (cb (inl e);; on_call f) (g', c')) ∧
     join_only c c' ∧ ¬ settled (par c') ∧
     ∀ c'', join_only c'' (f c'') ∧ par (f c'') = ParFailed) ∨
  (∃ t m c', (∀ cb, fire cb ev st0 = cb (inr (t, m)) (g', c')) ∧
     join_only c c' ∧ par c' = ParDone ∧ pending c' = [] ∧
     load_of evm = LoadOk t ∧ mapping_ok evs m) ∨
  (∃ x, load_of ev = LoadRaise x ∧
     ∀ cb, fire cb ev st0 = ((g', st0.2), inl (Raised x))).
Proof.
  intros [Hmain Hconts Htodo Heach Hdone Hres Hphase] Hi st0 g'.
  subst st0. pose proof (delete_Permutation _ _ _ Hi) as Hperm.
  set (c0 := set_pending (delete i (pending c)) c) in *.
  assert (Hj0 : join_only c c0) by done.
  assert (Hcase :
    (ev = evm ∧ (par c = ParWaiting ∧ todo ≠ ∅ ∧ pending c0 ≡ₚ pending_of todo
                 ∨ par c = ParPartials (result c) ∧ todo = ∅ ∧ pending c0 = [])) ∨
    (∃ name, todo !! name = Some ev ∧
       (par c = ParWaiting ∧ pending c0 ≡ₚ evm :: pending_of (delete name todo)
        ∨ ∃ t, par c = ParMain t ∧ load_of evm = LoadOk t ∧
               pending c0 ≡ₚ pending_of (delete name todo)))).
  { assert (Hin : ev ∈ pending c) by (rewrite Hperm; left).
    assert (Hne : ∀ name, todo !! name = Some ev → ev ≠ evm).
    { intros name Hn ->. pose proof (Hconts name evm (lookup_weaken _ _ _ _ Hn Htodo)).
      congruence. }
    change (pending c0) with (delete i (pending c)).
    destruct Hphase as [(Hp & Hne' & Hpend)|[(t & Hp & Hl & Hne' & Hpend)|(Hp & He & Hpend)]].
    - rewrite Hpend in Hin. apply elem_of_cons in Hin as [->|Hin].
      + left. split; [done|]. left. repeat split; try done.
        symmetry. apply (Permutation_cons_inv (a := evm)). by rewrite <- Hpend.
      + apply elem_of_pending_of in Hin as [name Hn]. right. exists name.
        split; [done|]. left. split; [done|].
        apply (Permutation_cons_inv (a := ev)). rewrite <- Hperm, Hpend.
        by rewrite (pending_of_delete _ _ _ Hn), Permutation_swap.
    - rewrite Hpend in Hin. apply elem_of_pending_of in Hin as [name Hn].
      right. exists name. split; [done|]. right. exists t. repeat split; try done.
      apply (Permutation_cons_inv (a := ev)). rewrite <- Hperm, Hpend.
      by rewrite (pending_of_delete _ _ _ Hn).
    - rewrite Hpend in Hin. apply list_elem_of_singleton in Hin as ->.
      left. split; [done|]. right. repeat split; try done.
      apply Permutation_nil_r. apply (Permutation_cons_inv (a := evm)).
      by rewrite <- Hperm, Hpend. }
  destruct Hcase as [[-> Hph]|(name & Hn & Hph)].
  - (* the main template *)
    destruct (load_of evm) as [e|x|t] eqn:Hl.
    + right; left. exists e, c0, (set_par ParFailed).
      split; [done|]. split; [by left|]. split; [|split; [done|split]].
      * intros cb. rewrite fire_spec, Hl, Hmain; simpl.
        apply task0_err. destruct Hph as [(Hp&_)|(Hp&_)]; eauto.
      * intros [Hs|Hs]; destruct Hph as [(Hp&_)|(Hp&_)]; simpl in Hs; congruence.
      * done.
    + right; right; right. exists x. split; [done|].
      intros cb. by rewrite fire_spec, Hl.
    + destruct Hph as [(Hp & Hne & Hpend)|(Hp & He & Hpend)].
      * left. exists t, (set_par (ParMain t) c0), todo.
        split; [done|]. split; [|split; [done|]].
        { intros cb. rewrite fire_spec, Hl, Hmain; simpl.
          by apply task0_waiting. }
        split; try done. right; left. exists t. by repeat split.
      * right; right; left. exists t, (result c), (set_par ParDone c0).
        split; [|split; [done|split; [done|split; [done|split; [done|]]]]].
        { intros cb. rewrite fire_spec, Hl, Hmain; simpl.
          by apply task0_partials. }
        subst todo. split.
        -- apply set_eq; intros name. rewrite !elem_of_dom. split.
           ++ intros H. by apply Hres.
           ++ intros [ev Hev]. destruct (Hdone name ev Hev) as (t' & _ & ->);
                [apply lookup_empty|done].
        -- intros name ev Hev. apply Hdone; [done|apply lookup_empty].
  - (* a partial *)
    pose proof (lookup_weaken _ _ _ _ Hn Htodo) as Hev.
    pose proof (Hconts _ _ Hev) as Hk.
    assert (Hne : todo ≠ ∅) by (intros ->; by rewrite lookup_empty in Hn).
    destruct (Heach Hne) as (Hlive & Htot & Hcomp).
    assert (Hsz : size todo = S (size (delete name todo))).
    { rewrite map_size_delete, Hn.
      apply map_size_non_empty_iff in Hne. lia. }
    destruct (load_of ev) as [e|x|t] eqn:Hl.
    + right; left.
      exists e, (set_result (<[name := Undefined]> (result c0)) c0),
        ((λ c, set_each (each_total c) (each_completed c) false c)
           ∘ set_par ParFailed).
      split; [done|]. split; [by eauto|]. split; [|split; [done|split]].
      * intros cb. rewrite fire_spec, Hl, Hk; simpl.
        rewrite mapObj_next_err by done.
        rewrite <- bind_on_call_assoc. munfold. simpl.
        rewrite task1_err; [done|].
        destruct Hph as [(Hp&_)|(t&Hp&_)]; simpl; eauto.
      * intros [Hs|Hs]; destruct Hph as [(Hp&_)|(t&Hp&_)]; simpl in Hs; congruence.
      * done.
    + right; right; right. exists x. split; [done|].
      intros cb. by rewrite fire_spec, Hl.
    + set (r' := <[name := Fn t]> (result c)).
      set (todo' := delete name todo) in *.
      set (c2 := set_each (each_total c0) (S (each_completed c0)) (each_live c0)
                   (set_result r' c0)).
      assert (Htodo' : todo' ⊆ evs).
      { etrans; [apply delete_subseteq|done]. }
      assert (Heach' : todo' ≠ ∅ →
        each_live c2 = true ∧ each_total c2 = size evs ∧
        each_completed c2 + size todo' = size evs).
      { intros _. simpl. repeat split; [done..|lia]. }
      assert (Hdone' : ∀ n ev', evs !! n = Some ev' → todo' !! n = None →
        ∃ t', load_of ev' = LoadOk t' ∧ r' !! n = Some (Fn t')).
      { intros n ev' Hev' Hn'. unfold r'. destruct (decide (name = n)) as [<-|Hnn].
        - rewrite lookup_insert_eq. exists t. split; [congruence|done].
        - rewrite lookup_insert_ne by done. apply Hdone; [done|].
          unfold todo' in Hn'. by rewrite lookup_delete_ne in Hn'. }
      assert (Hres' : ∀ n, is_Some (r' !! n) →
        is_Some (evs !! n) ∧ todo' !! n = None).
      { intros n. unfold r', todo'. destruct (decide (name = n)) as [<-|Hnn].
        - intros _. split; [eauto|apply lookup_delete_eq].
        - rewrite lookup_insert_ne, lookup_delete_ne by done. apply Hres. }
      destruct (decide (todo' = ∅)) as [He|Hne'].
      * (* the last partial *)
        assert (Hlast : each_total c0 ≤ S (each_completed c0)).
        { simpl. rewrite He, map_size_empty in Hsz. lia. }
        destruct Hph as [(Hp & Hpend)|(tm & Hp & Hlm & Hpend)].
        -- left. exists t, (set_par (ParPartials r') c2), todo'.
           split; [done|]. split; [|split; [done|]].
           { intros cb. rewrite fire_spec, Hl, Hk; simpl.
             rewrite mapObj_next_last by done.
             rewrite task1_waiting by done. simpl. unfold c2. simpl.
             by rewrite Hlive. }
           split; try done. right; right. repeat split; [done|].
           transitivity (evm :: pending_of todo'); [exact Hpend|].
           by rewrite He, pending_of_empty.
        -- right; right; left. exists tm, r', (set_par ParDone c2).
           split; [|split; [done|split; [done|split; [|split; [done|]]]]].
           { intros cb. rewrite fire_spec, Hl, Hk; simpl.
             rewrite mapObj_next_last by done.
             rewrite (task1_main _ tm) by done. simpl. unfold c2. simpl.
             by rewrite Hlive. }
           { rewrite He, pending_of_empty in Hpend.
             by apply Permutation_nil_r in Hpend. }
           split.
           ++ apply set_eq; intros n. rewrite !elem_of_dom. split.
              ** intros H. by apply Hres'.
              ** intros [ev' Hev']. destruct (Hdone' n ev' Hev') as (t' & _ & ->);
                   [rewrite He; apply lookup_empty|done].
           ++ intros n ev' Hev'. apply Hdone'; [done|].
              rewrite He; apply lookup_empty.
      * left. exists t, c2, todo'. split; [done|]. split; [|split; [done|]].
        { intros cb. rewrite fire_spec, Hl, Hk; simpl.
          rewrite mapObj_next_more; [done|]. simpl.
          apply map_size_non_empty_iff in Hne'. lia. }
        split; try done.
        destruct Hph as [(Hp & Hpend)|(tm & Hp & Hlm & Hpend)].
        -- left. by repeat split.
        -- right; left. exists tm. by repeat split.
Qed.

(** Once the join has failed, what fires changes the activation without
    calling the callback of [_get]. *)
Lemma task0_failed cb r g c :
  par c = ParFailed → parallel_task0 cb r (g, c) = ((g, c), inr tt).
Proof.
  intros H. unfold parallel_task0. munfold; simpl. rewrite H. by destruct r.
Qed.

Lemma task1_failed cb err ps g c :
  par c = ParFailed → parallel_task1 cb err ps (g, c) = ((g, c), inr tt).
Proof.
  intros H. unfold parallel_task1. munfold; simpl. rewrite H. by destruct err.
Qed.

Lemma fire_failed cb1 cb2 ev g c :
  par c = ParFailed → fire cb1 ev (g, c) = fire cb2 ev (g, c).
Proof.
  intros H. rewrite !fire_spec.
  assert (Hk : ∀ r g, apply_cont cb1 (ev_cont ev) r (g, c)
                      = apply_cont cb2 (ev_cont ev) r (g, c)).
  { intros r g0. destruct (ev_cont ev) as [|name]; simpl.
    - by rewrite !task0_failed.
    - unfold mapObj_next, each_done, mapObj_callback. munfold; simpl.
      destruct r as [e|t]; simpl.
      + destruct (each_live c); simpl; [|done]. by rewrite !task1_failed.
      + case_decide; [|done]. destruct (each_live c); simpl; [|done].
        by rewrite !task1_failed. }
  by destruct (load_of ev).
Qed.

Lemma load_of_main_failure tmplPath e :
  readFile tmplPath = inl e → load_of (Read tmplPath KMain) = LoadErr e.
Proof. intros H. simpl. by rewrite H. Qed.

(** *** Starting [_get] *)

Lemma forM_getTmpl (l : list (string * string)) g tr c :
  forM_ l (λ kv, _getTmpl kv.2 (KPartial kv.1))
    (mkGlobal (cache g) (registry g) (heap g) tr, c)
  = ((mkGlobal (cache g) (registry g) (heap g)
        (foldl (λ tr p, lookup_obs g p ++ tr) tr l.*2),
      set_pending
        (pending c ++ map (λ kv, lookup_event g kv.2 (KPartial kv.1)) l) c),
     inr tt).
Proof.
  revert tr c. induction l as [|kv l IH]; intros tr c; simpl.
  - unfold mret, M_ret. rewrite app_nil_r. by destruct c.
  - unfold mbind, M_bind. rewrite _getTmpl_spec; simpl.
    rewrite IH; simpl. by rewrite <- app_assoc.
Qed.

Lemma partial_events_lookup g (ps : gmap string string) name :
  partial_events g ps !! name
  = (λ tmplPath, lookup_event g tmplPath (KPartial name)) <$> ps !! name.
Proof.
  unfold partial_events. rewrite map_lookup_imap.
  by destruct (ps !! name).
Qed.

Lemma partial_events_size g (ps : gmap string string) :
  size (partial_events g ps) = size ps.
Proof.
  rewrite <- !size_dom. f_equal. apply set_eq; intros name.
  rewrite !elem_of_dom, partial_events_lookup.
  by rewrite fmap_is_Some.
Qed.

Lemma partial_events_pending g (ps : gmap string string) :
  pending_of (partial_events g ps)
  ≡ₚ map (λ kv, lookup_event g kv.2 (KPartial kv.1)) (map_to_list ps).
Proof.
  unfold pending_of, partial_events.
  induction ps as [|name tmplPath ps Hn IH] using map_ind.
  - by rewrite map_imap_empty, !map_to_list_empty.
  - erewrite map_imap_insert_Some by done.
    rewrite !map_to_list_insert; [|done|].
    + simpl. by rewrite IH.
    + rewrite map_lookup_imap, Hn. done.
Qed.

Lemma ev_cont_lookup_event g tmplPath k :
  ev_cont (lookup_event g tmplPath k) = k.
Proof. unfold lookup_event. by destruct (cache g !! tmplPath). Qed.

(** The state that [_get] leaves: the callbacks of the lookups wait in the
    event loop, the main template first and the partials in key order. *)
Lemma _get_spec tmplPath (ps : gmap string string) cb g c :
  let l := map_to_list ps in
  _get tmplPath (Some ps) cb (g, c)
  = ((mkGlobal (cache g) (registry g) (heap g)
        (foldl (λ tr p, lookup_obs g p ++ tr) (trace g) (tmplPath :: l.*2)),
      mkCall (rf_data c) (rf_opts c) (rf_callback c)
        (match l with [] => ParPartials ∅ | _ => ParWaiting end)
        (match l with [] => each_total c | _ => length l end)
        (match l with [] => each_completed c | _ => 0 end)
        (match l with [] => each_live c | _ => true end)
        ∅
        (pending c ++ lookup_event g tmplPath KMain ::
           map (λ kv, lookup_event g kv.2 (KPartial kv.1)) l)
        (delivered c) (raised c)),
     inr tt).
Proof.
  intros l. unfold _get, _getPartials, mapObj, async_each.
  unfold mbind at 1 2, M_bind, on_call at 1, modify. simpl.
  rewrite _getTmpl_spec. simpl.
  unfold mbind at 1, M_bind, on_call at 1, modify. simpl. fold l.
  destruct l as [|kv l'] eqn:El.
  - unfold mapObj_callback, parallel_task1. munfold; simpl.
    reflexivity.
  - unfold mbind at 1, M_bind, on_call at 1, modify.
    cbv beta iota zeta. unfold fst, snd at 1.
    rewrite forM_getTmpl. simpl. unfold set_pending; simpl.
    by rewrite <- !app_assoc.
Qed.

Lemma _get_running tmplPath (ps : gmap string string) cb g c :
  pending c = [] →
  ∃ g' c',
    _get tmplPath (Some ps) cb (g, c) = ((g', c'), inr tt) ∧
    cache g' = cache g ∧ registry g' = registry g ∧ heap g' = heap g ∧
    join_only c c' ∧
    Running (lookup_event g tmplPath KMain) (partial_events g ps)
      (partial_events g ps) c'.
Proof.
  intros Hpend. eexists _, _. split; [apply _get_spec|].
  rewrite Hpend. simpl. do 4 (split; [done|]).
  assert (Hlen : length (map_to_list ps) = size (partial_events g ps)).
  { by rewrite partial_events_size, length_map_to_list. }
  constructor; simpl.
  - apply ev_cont_lookup_event.
  - intros name ev. rewrite partial_events_lookup.
    destruct (ps !! name); simpl; [|done]. intros [= <-].
    apply ev_cont_lookup_event.
  - done.
  - intros Hne. apply map_size_non_empty_iff in Hne. rewrite <- Hlen in *.
    destruct (map_to_list ps); [done|]. done.
  - intros name ev H1 H2. congruence.
  - intros name H. rewrite lookup_empty in H. by destruct H.
  - destruct (map_to_list ps) as [|kv l] eqn:El.
    + right; right. apply map_to_list_empty_iff in El as ->.
      split; [done|]. split; [|done].
      unfold partial_events. by rewrite map_imap_empty.
    + left. split; [done|]. split.
      * apply map_size_non_empty_iff. by rewrite <- Hlen.
      * by rewrite partial_events_pending, El.
Qed.

(** *** What one callback may do, whatever the state *)

Lemma renderFile_callback_err e g c :
  renderFile_callback (inl e) (g, c) =
    match rf_callback c with
    | None => ((g, c), inl TypeError)
    | Some _ => ((g, set_delivered (delivered c ++ [inl e]) c), inr tt)
    end.
Proof.
  unfold ducktail.renderFile_callback, call_callback. munfold; simpl.
  by destruct (rf_callback c).
Qed.

Lemma renderFile_callback_ok t ps g c :
  renderFile_callback (inr (t, ps)) (g, c) =
    match heap g !! rf_opts c with
    | None => ((g, c), inl TypeError)
    | Some o =>
        match renderTmpl (Compiled t) (rf_data c)
                (Some (mkTmplOpts (Some ps) (opt_helpers o))) (registry g) with
        | (r, inl x) => ((set_registry r g, c), inl x)
        | (r, inr s) =>
            match rf_callback c with
            | None => ((set_registry r g, c), inl TypeError)
            | Some _ =>
                ((set_registry r g, set_delivered (delivered c ++ [inr s]) c),
                 inr tt)
            end
        end
    end.
Proof.
  unfold ducktail.renderFile_callback, call_callback, opts_helpers, zoom.
  munfold; simpl.
  destruct (heap g !! rf_opts c) as [o|]; simpl; [|done].
  destruct (renderTmpl _ _ _ _) as [r [x|s]]; simpl; [done|].
  by destruct (rf_callback c).
Qed.

(** What the callback of [renderFile] changes. *)
Lemma renderFile_callback_post x g c :
  cb_post g c (renderFile_callback x (g, c)).
Proof.
  destruct x as [e|[t ps]].
  - rewrite renderFile_callback_err. destruct (rf_callback c); simpl; eauto 10.
  - rewrite renderFile_callback_ok.
    destruct (heap g !! rf_opts c) as [o|]; simpl; [|done].
    destruct (renderTmpl _ _ _ _) as [r [y|s]]; simpl; [done|].
    destruct (rf_callback c); simpl; eauto 10.
Qed.


Lemma good_ret {A} (a : A) : good (mret a).
Proof. intros g c. simpl. unfold post; simpl. tauto. Qed.

Lemma good_throw {A} e : good (throw e : M Exn St A).
Proof. intros g c. unfold post; simpl. tauto. Qed.

Lemma good_gets {A} (f : St → A) : good (gets f).
Proof. intros g c. unfold post; simpl. tauto. Qed.

Lemma good_bind {A B} (m : M Exn St A) (f : A → M Exn St B) :
  good m → (∀ a, good (f a)) → good (m ≫= f).
Proof.
  intros Hm Hf g c. specialize (Hm g c). unfold mbind, M_bind.
  destruct (m (g, c)) as [[g1 c1] [e|a]]; [exact Hm|].
  specialize (Hf a g1 c1). destruct (f a (g1, c1)) as [[g2 c2] r].
  unfold post in *.
  destruct Hm as (?&?&?&?&?&?&?&?&Hs1&Hd1).
  destruct Hf as (?&?&?&?&?&?&?&?&Hs2&Hd2).
  do 8 (split; [congruence|]). split.
  - intros Hs. destruct (Hs1 Hs) as [Hp1 Hdel1].
    destruct (Hs2 ltac:(by rewrite Hp1)) as [Hp2 Hdel2].
    split; congruence.
  - destruct Hd1 as [Hd1|(x & Hd1 & Hset)].
    + destruct Hd2 as [Hd2|(x & Hd2 & Hset)]; [left; congruence|].
      right. exists x. split; [congruence|done].
    + destruct (Hs2 Hset) as [Hp Hd]. right. exists x.
      split; [congruence|]. by rewrite Hp.
Qed.

Lemma good_on_call (f : Call → Call) :
  (∀ c, rf_data (f c) = rf_data c ∧ rf_opts (f c) = rf_opts c ∧
        rf_callback (f c) = rf_callback c ∧ raised (f c) = raised c ∧
        pending (f c) = pending c ∧ delivered (f c) = delivered c ∧
        (settled (par c) → par (f c) = par c)) →
  good (on_call f).
Proof.
  intros Hf g c. destruct (Hf c) as (?&?&?&?&?&?&?).
  unfold post; simpl. repeat split; auto.
Qed.


Ltac use_callback :=
  match goal with
  | |- context [renderFile_callback ?x (?g, ?c)] =>
      let H := fresh "H" in
      pose proof (renderFile_callback_post x g c) as H;
      destruct (renderFile_callback x (g, c)) as [[? ?] [?|[]]];
      destruct H as (?&?&?&H); [|destruct H as [? H]]; subst
  end.

Ltac solve_post :=
  unfold post, settled; simpl;
  repeat split; intros;
  first
    [ congruence
    | match goal with H : _ ∨ _ |- _ => destruct H; congruence end
    | left; congruence
    | right; eexists; split; [reflexivity|]; auto ].

Lemma good_task0 r : good (parallel_task0 renderFile_callback r).
Proof.
  intros g c. unfold parallel_task0. munfold. simpl.
  destruct (par c) eqn:Hp; destruct r as [e|t]; simpl;
    try use_callback; solve_post.
Qed.

Lemma good_task1 err ps : good (parallel_task1 renderFile_callback err ps).
Proof.
  intros g c. unfold parallel_task1. munfold. simpl.
  destruct (par c) eqn:Hp; destruct err as [e|]; simpl;
    try use_callback; solve_post.
Qed.

Lemma good_apply_cont k r : good (apply_cont renderFile_callback k r).
Proof.
  destruct k as [|name]; simpl; [apply good_task0|].
  unfold mapObj_next, each_done, mapObj_callback.
  apply good_bind; [by apply good_on_call|]. intros _.
  destruct r as [e|t].
  - apply good_bind; [apply good_gets|]. intros live.
    apply good_bind; [|intros _; by apply good_on_call].
    destruct live; [|apply good_ret].
    apply good_bind; [apply good_gets|]. intros res. apply good_task1.
  - apply good_bind; [by apply good_on_call|]. intros _.
    apply good_bind; [apply good_gets|]. intros c.
    case_decide; [|apply good_ret].
    destruct (each_live c); [|apply good_ret].
    apply good_bind; [apply good_gets|]. intros res. apply good_task1.
Qed.

Lemma fire_post ev g c :
  post (after_load ev g) c (fire renderFile_callback ev (g, c)).
Proof.
  rewrite fire_spec. destruct (load_of ev); try apply good_apply_cont.
  unfold post; simpl. tauto.
Qed.

(** *** The invariant of an activation *)

Lemma running_pending evm evs todo c : Running evm evs todo c → pending c ≠ [].
Proof.
  intros HR E. destruct (run_phase _ _ _ _ _ _ HR)
    as [(_ & _ & H)|[(t & _ & _ & Hne & H)|(_ & _ & H)]]; rewrite E in H.
  - by apply Permutation_nil_cons in H.
  - symmetry in H. apply Permutation_nil_r in H.
    by apply pending_of_nonempty in H.
  - by apply Permutation_nil_cons in H.
Qed.

Lemma note_raised_nil (r : Exn + unit) c :
  raised (note r c) = [] → raised c = [] ∧ r = inr tt.
Proof.
  destruct r as [e|[]]; simpl; [|done].
  intros H. by apply app_eq_nil in H as [_ H].
Qed.

Lemma outcome_ok_data evm evs c c' x :
  rf_data c' = rf_data c → outcome_ok evm evs c x → outcome_ok evm evs c' x.
Proof. intros E. destruct x; simpl; [done|]. by rewrite E. Qed.

Lemma fire_tracked evm evs g c i ev :
  tracked evm evs c → pending c !! i = Some ev →
  let '((g', c'), r) :=
    fire renderFile_callback ev (g, set_pending (delete i (pending c)) c) in
  tracked evm evs (note r c').
Proof.
  intros [Hamo Htr] Hi.
  set (c0 := set_pending (delete i (pending c)) c).
  pose proof (fire_post ev g c0) as Hpost.
  destruct (fire renderFile_callback ev (g, c0)) as [[g' c'] r] eqn:Hfire.
  destruct Hpost as (_ & _ & _ & Hdata & _ & _ & Hraised & _ & Hset & Hdel).
  split.
  - (* at most once *)
    assert (at_most_once c') as H; [|by destruct r].
    destruct Hamo as [Hnil|[Hone Hs]].
    + destruct Hdel as [Hd|(x & Hd & Hs)].
      * left. by rewrite Hd.
      * right. rewrite Hd. simpl in *. rewrite Hnil. done.
    + destruct (Hset Hs) as [Hp Hd]. right. by rewrite Hd, Hp.
  - intros Hr. apply note_raised_nil in Hr as [Hr ->]. simpl.
    rewrite Hraised in Hr. destruct (Htr Hr) as [[Hnil [todo HR]]|Hdone].
    + destruct (fire_running evm evs todo g c i ev HR Hi)
        as [(t & c1 & todo' & _ & Hf & Hj & HR')
           |[(e & c1 & f & Hl & Hev & Hf & Hj & _ & Hfj)
            |[(t & m & c1 & Hf & Hj & Hp & _ & Hlm & Hm)
             |(x & _ & Hf)]]];
        specialize (Hf renderFile_callback); fold c0 in Hf;
        rewrite Hfire in Hf.
      * injection Hf as -> ->. left. split; [|by eauto].
        destruct Hj as (_ & _ & _ & -> & _). done.
      * right. unfold mbind, M_bind in Hf.
        rewrite renderFile_callback_err in Hf.
        destruct (rf_callback c1); [|done]. simpl in Hf.
        injection Hf as -> ->. destruct (Hfj (set_delivered (delivered c1 ++ [inl e]) c1))
          as ((Hd1 & _ & _ & Hd2 & _) & Hp).
        destruct Hj as (_ & _ & _ & Hd3 & _).
        exists (inl e). rewrite Hd2, Hp. simpl. rewrite Hd3, Hnil.
        split; [done|]. split; [by right|]. eauto.
      * right. rewrite renderFile_callback_ok in Hf.
        destruct (heap _ !! rf_opts c1) as [o|]; [|done].
        destruct (renderTmpl _ _ _ _) as [reg [y|s]] eqn:Hrender; [done|].
        destruct (rf_callback c1); [|done].
        injection Hf as -> ->. destruct Hj as (Hd1 & _ & _ & Hd3 & _).
        exists (inr s). simpl. rewrite Hd3, Hnil, Hp.
        split; [done|]. split; [by left|].
        eexists t, m, _, _, _. split; [done|]. split; [done|].
        exact Hrender.
      * done.
    + destruct Hdone as (x & Hx & Hs & Hok). right.
      destruct (Hset Hs) as [Hp Hd]. exists x. rewrite Hd, Hp.
      split; [done|]. split; [done|]. by apply (outcome_ok_data _ _ c).
Qed.

Lemma opts_partials_spec g c :
  opts_partials (g, c) =
    match heap g !! rf_opts c with
    | None => ((g, c), inl TypeError)
    | Some o => ((g, c), inr (opt_partials o))
    end.
Proof.
  unfold opts_partials. munfold; simpl. by destruct (heap g !! rf_opts c).
Qed.

Lemma _get_undefined tmplPath cb g c :
  _get tmplPath None cb (g, c)
  = ((mkGlobal (cache g) (registry g) (heap g)
        (lookup_obs g tmplPath ++ trace g),
      set_result ∅
        (set_pending (pending c ++ [lookup_event g tmplPath KMain])
           (set_par ParWaiting c))),
     inl TypeError).
Proof.
  unfold _get, _getPartials, mapObj.
  unfold mbind at 1 2, M_bind, on_call at 1, modify. simpl.
  rewrite _getTmpl_spec. reflexivity.
Qed.

(** [renderFile] starts the activation in a state that the invariant
    covers. *)
Lemma renderFile_tracked tmplPath data opts callback g :
  let '((g', c), r) := renderFile tmplPath data opts callback g in
  cache g' = cache g ∧ heap g' = heap g ∧ registry g' = registry g ∧
  ∃ evs, tracked (lookup_event g tmplPath KMain) evs (note r c) ∧
    ∀ o ps, heap g !! opts = Some o → opt_partials o = Some ps →
      evs = partial_events g ps ∧ r = inr tt.
Proof.
  unfold ducktail.renderFile, renderFile_body. unfold mbind, M_bind.
  rewrite opts_partials_spec. simpl.
  destruct (heap g !! opts) as [o|] eqn:Ho.
  - destruct (opt_partials o) as [ps|] eqn:Hps.
    + destruct (_get_running tmplPath ps
                  (@ducktail.renderFile_callback Data Helper Template
                     EngineErr Err compile invoke)
                  g (new_call data opts callback) eq_refl)
        as (g' & c' & -> & ? & ? & ? & Hj & HR).
      do 3 (split; [done|]). exists (partial_events g ps). split.
      * destruct Hj as (_ & _ & _ & Hd & Hr). simpl. split.
        -- left. by rewrite Hd.
        -- intros _. left. rewrite Hd. split; [done|]. by eexists.
      * intros o' ps' [= <-] Hps'. rewrite Hps in Hps'.
        by injection Hps' as <-.
    + rewrite _get_undefined. simpl. do 3 (split; [done|]).
      exists ∅. split; [|intros o' ps' [= <-] Hps'; congruence].
      split; [by left|]. done.
  - do 3 (split; [done|]). exists ∅. split; [|done].
    split; [by left|]. done.
Qed.

(** *** The argument handling of [render] *)

Lemma render_args_fn f callback g :
  render_args (OptsFn f) callback g
  = (set_heap (λ h, h ++ [mkOptions (Some ∅) (Some ∅)]) g,
     inr (length (heap g), Some f)).
Proof.
  unfold ducktail.render_args. munfold; simpl.
  rewrite lookup_app_r, Nat.sub_diag by done. simpl.
  unfold set_heap; simpl. do 2 f_equal.
  rewrite !insert_app_r_alt, Nat.sub_diag by done. done.
Qed.

Lemma render_args_obj o obj callback g :
  heap g !! o = Some obj →
  render_args (OptsObj o) callback g
  = (set_heap <[o := mkOptions (Some (default ∅ (opt_partials obj)))
                     (Some (default ∅ (opt_helpers obj)))]> g,
     inr (o, callback)).
Proof.
  intros H. unfold ducktail.render_args. munfold; simpl. rewrite H. simpl.
  unfold set_heap; simpl. by rewrite list_insert_insert_eq.
Qed.

Lemma render_args_dangling o callback g :
  heap g !! o = None →
  render_args (OptsObj o) callback g = (g, inl TypeError).
Proof.
  intros H. unfold ducktail.render_args. munfold; simpl. by rewrite H.
Qed.

Lemma render_args_null callback g :
  render_args OptsNull callback g = (g, inl TypeError).
Proof. done. Qed.

Lemma render_args_frame opts callback g :
  let '(g', _) := render_args opts callback g in
  cache g' = cache g ∧ registry g' = registry g ∧ trace g' = trace g.
Proof.
  destruct opts as [f|o|].
  - by rewrite render_args_fn.
  - destruct (heap g !! o) as [obj|] eqn:H.
    + by rewrite (render_args_obj _ obj).
    + by rewrite render_args_dangling.
  - done.
Qed.

(** *** The process: lifting the invariants of one callback *)

Lemma run_cons l ls (w : World) : run (l :: ls) w = run ls (step l w).
Proof. done. Qed.

Lemma run_app ls1 ls2 (w : World) : run (ls1 ++ ls2) w = run ls2 (run ls1 w).
Proof. unfold ducktail.run. by rewrite foldl_app. Qed.

(** What a step does to the activations: nothing, a new one at the end,
    or one callback of one of them. *)
Lemma step_calls l (w : World) :
  calls (step l w) = calls w ∨
  (∃ tmplPath data opts callback g,
     let '((g', c), r) := renderFile tmplPath data opts callback g in
     calls (step l w) = calls w ++ [note r c]) ∨
  (∃ n i c ev, l = Fire n i ∧ calls w !! n = Some c ∧
     pending c !! i = Some ev ∧
     let '((g', c'), r) :=
       fire renderFile_callback ev
         (glob w, set_pending (delete i (pending c)) c) in
     calls (step l w) = <[n := note r c']> (calls w)).
Proof.
  destruct l as [p d o cb|p d o cb|t d o| |obj|o obj|n i]; simpl; auto.
  - unfold ducktail.render.
    destruct (render_args o cb (glob w)) as [g1 [e|[o' cb']]]; [by left|].
    right; left. exists p, d, o', cb', g1.
    by destruct (ducktail.renderFile _ _ _ _ _ _ _) as [[g2 c] r].
  - right; left. exists p, d, o, cb, (glob w).
    by destruct (ducktail.renderFile _ _ _ _ _ _ _) as [[g2 c] r].
  - destruct (ducktail.renderTmpl _ _ _ _ _ _). by left.
  - destruct (calls w !! n) as [c|] eqn:Hc; [|by left].
    destruct (pending c !! i) as [ev|] eqn:Hev; [|by left].
    right; right. exists n, i, c, ev. do 3 (split; [done|]).
    by destruct (ducktail.fire _ _ _ _ _) as [[g' c'] r].
Qed.

Section Lifting.
Variable P : Call → Prop.
Hypothesis P_fire : ∀ g c i ev,
  P c → pending c !! i = Some ev →
  let '((g', c'), r) :=
    fire renderFile_callback ev (g, set_pending (delete i (pending c)) c) in
  P (note r c').

Lemma step_call l (w : World) n c :
  calls w !! n = Some c → P c →
  ∃ c', calls (step l w) !! n = Some c' ∧ P c'.
Proof.
  intros Hn HP.
  destruct (step_calls l w)
    as [->|[(p & d & o & cb & g & H)|(m & i & c1 & ev & _ & Hm & Hi & H)]].
  - eauto.
  - destruct (renderFile _ _ _ _ _) as [[g' c'] r]. rewrite H.
    exists c. split; [|done]. by apply lookup_app_l_Some.
  - pose proof (P_fire (glob w) c1 i ev) as HP1.
    destruct (fire _ _ _) as [[g' c'] r]. rewrite H.
    destruct (decide (m = n)) as [->|Hne].
    + exists (note r c'). split.
      * apply list_lookup_insert_eq. by eapply lookup_lt_Some.
      * apply HP1; [|done]. congruence.
    + exists c. by rewrite list_lookup_insert_ne.
Qed.

Lemma run_call ls (w : World) n c :
  calls w !! n = Some c → P c →
  ∃ c', calls (run ls w) !! n = Some c' ∧ P c'.
Proof.
  revert w c. induction ls as [|l ls IH]; intros w c Hn HP; [by eauto|].
  rewrite run_cons. destruct (step_call l w n c Hn HP) as (c' & Hn' & HP').
  by apply (IH _ c').
Qed.

Hypothesis P_start : ∀ tmplPath data opts callback g,
  let '((g', c), r) := renderFile tmplPath data opts callback g in
  P (note r c).

Lemma step_all l (w : World) :
  Forall P (calls w) → Forall P (calls (step l w)).
Proof.
  intros Hall.
  destruct (step_calls l w)
    as [->|[(p & d & o & cb & g & H)|(m & i & c1 & ev & _ & Hm & Hi & H)]].
  - done.
  - pose proof (P_start p d o cb g) as HP.
    destruct (renderFile _ _ _ _ _) as [[g' c'] r]. rewrite H.
    apply Forall_app. split; [done|]. by apply Forall_singleton.
  - pose proof (P_fire (glob w) c1 i ev) as HP1.
    destruct (fire _ _ _) as [[g' c'] r]. rewrite H.
    apply Forall_insert; [done|]. apply HP1; [|done].
    by eapply Forall_lookup_1.
Qed.

Lemma run_all ls (w : World) :
  Forall P (calls w) → Forall P (calls (run ls w)).
Proof.
  revert w. induction ls as [|l ls IH]; intros w Hall; [done|].
  rewrite run_cons. by apply IH, step_all.
Qed.
End Lifting.

Lemma run_call_ok ls (w : World) :
  Forall call_ok (calls w) → Forall call_ok (calls (run ls w)).
Proof.
  apply run_all.
  - intros g c i ev (evm & evs & Htr) Hi.
    pose proof (fire_tracked evm evs g c i ev Htr Hi) as H.
    destruct (fire _ _ _) as [[g' c'] r]. by exists evm, evs.
  - intros p d o cb g. pose proof (renderFile_tracked p d o cb g) as H.
    destruct (renderFile _ _ _ _ _) as [[g' c] r].
    destruct H as (_ & _ & _ & evs & H & _). by eexists _, evs.
Qed.

(** *** The process-wide state along a run *)

Lemma lookup_obs_reads g tmplPath :
  Forall (λ o, is_ReadCall o = true) (lookup_obs g tmplPath).
Proof.
  unfold lookup_obs. destruct (cache g !! tmplPath); repeat constructor.
Qed.

Lemma foldl_lookup_obs g tr (l : list string) :
  ∃ tr', foldl (λ tr p, lookup_obs g p ++ tr) tr l = tr' ++ tr ∧
         Forall (λ o, is_ReadCall o = true) tr'.
Proof.
  revert tr. induction l as [|p l IH]; intros tr; simpl.
  - by exists [].
  - destruct (IH (lookup_obs g p ++ tr)) as (tr' & -> & Hall).
    exists (tr' ++ lookup_obs g p). rewrite <- app_assoc. split; [done|].
    apply Forall_app. split; [done|apply lookup_obs_reads].
Qed.

(** [renderFile] reads the cache and calls fs.readFile; it changes nothing
    else of the process-wide state. *)
Lemma renderFile_global tmplPath data opts callback g :
  let '((g', c), r) := renderFile tmplPath data opts callback g in
  cache g' = cache g ∧ heap g' = heap g ∧ registry g' = registry g ∧
  ∃ tr, trace g' = tr ++ trace g ∧ Forall (λ o, is_ReadCall o = true) tr.
Proof.
  unfold ducktail.renderFile, renderFile_body. unfold mbind, M_bind.
  rewrite opts_partials_spec. simpl.
  destruct (heap g !! opts) as [o|] eqn:Ho.
  - destruct (opt_partials o) as [ps|] eqn:Hps.
    + rewrite _get_spec. cbv beta iota zeta. do 3 (split; [done|]).
      apply (foldl_lookup_obs g (trace g) (tmplPath :: (map_to_list ps).*2)).
    + rewrite _get_undefined. simpl. do 3 (split; [done|]).
      eexists. split; [done|]. apply lookup_obs_reads.
  - do 3 (split; [done|]). by exists [].
Qed.

Lemma render_global tmplPath data opts callback g :
  let '(g', _, _) := render tmplPath data opts callback g in
  cache g' = cache g ∧ registry g' = registry g ∧
  ∃ tr, trace g' = tr ++ trace g ∧ Forall (λ o, is_ReadCall o = true) tr.
Proof.
  unfold ducktail.render.
  pose proof (render_args_frame opts callback g) as H.
  destruct (render_args opts callback g) as [g1 [e|[o' cb']]].
  - destruct H as (? & ? & ?). do 2 (split; [done|]). by exists [].
  - pose proof (renderFile_global tmplPath data o' cb' g1) as H1.
    destruct (renderFile _ _ _ _ _) as [[g2 c] r].
    destruct H as (Hc & Hr & Ht). destruct H1 as (Hc1 & _ & Hr1 & tr & Ht1 & Hall).
    split; [congruence|]. split; [congruence|].
    exists tr. split; [congruence|done].
Qed.

(** What a step does to the cache and to the observations: it adds calls
    of fs.readFile at most; or it is [clearCache]; or it is the completion
    of a read, which is observed and caches what it compiled. *)
Lemma step_glob l (w : World) :
  (cache (glob (step l w)) = cache (glob w) ∧
   ∃ tr, trace (glob (step l w)) = tr ++ trace (glob w) ∧
         Forall (λ o, is_ReadCall o = true) tr) ∨
  (l = CallClearCache ∧ glob (step l w) = clearCache (glob w)) ∨
  (∃ n i c tmplPath k, l = Fire n i ∧ calls w !! n = Some c ∧
     pending c !! i = Some (Read tmplPath k) ∧
     trace (glob (step l w))
     = ReadDone tmplPath (readFile tmplPath) :: trace (glob w) ∧
     cache (glob (step l w))
     = match load_of (Read tmplPath k) with
       | LoadOk t => <[tmplPath := t]> (cache (glob w))
       | _ => cache (glob w)
       end).
Proof.
  assert (Hsame : ∀ g' : Global, cache g' = cache (glob w) →
    trace g' = trace (glob w) →
    cache g' = cache (glob w) ∧
    ∃ tr, trace g' = tr ++ trace (glob w) ∧
          Forall (λ o, is_ReadCall o = true) tr).
  { intros g' ? ?. split; [done|]. by exists []. }
  destruct l as [p d o cb|p d o cb|t d o| |obj|o obj|n i]; simpl.
  - left. pose proof (render_global p d o cb (glob w)) as H.
    destruct (render _ _ _ _ _) as [[g' [c|]] r]; simpl;
      destruct H as (? & _ & ?); done.
  - left. pose proof (renderFile_global p d o cb (glob w)) as H.
    destruct (renderFile _ _ _ _ _) as [[g' c] r]; simpl.
    destruct H as (? & _ & _ & ?); done.
  - left. destruct (ducktail.renderTmpl _ _ _ _ _ _). by apply Hsame.
  - right; left. done.
  - left. by apply Hsame.
  - left. by apply Hsame.
  - destruct (calls w !! n) as [c|] eqn:Hc; [|left; by apply Hsame].
    destruct (pending c !! i) as [ev|] eqn:Hev; [|left; by apply Hsame].
    pose proof (fire_post ev (glob w) (set_pending (delete i (pending c)) c))
      as H.
    destruct (fire _ _ _) as [[g' c'] r]. simpl.
    destruct H as (Hcache & Htrace & _).
    destruct ev as [t k|tmplPath k].
    + left. by apply Hsame.
    + right; right. exists n, i, c, tmplPath, k. do 3 (split; [done|]).
      rewrite Hcache, Htrace. simpl. split.
      * by destruct (readFile tmplPath) as [|src]; [|destruct (compile src)].
      * by destruct (readFile tmplPath) as [|src]; [|destruct (compile src)].
Qed.

Lemma step_cache_ok l (w : World) :
  cache_ok (glob w) → cache_ok (glob (step l w)).
Proof.
  intros Hok. destruct (step_glob l w)
    as [(Hc & tr & Ht & Hall)|[[_ ->]|(n & i & c & p & k & _ & _ & _ & Ht & Hc)]];
    intros q t.
  - rewrite Hc, Ht. intros Hq. destruct (Hok q t Hq) as (src & ? & ?).
    exists src. split; [done|]. by apply since_clear_app_elem.
  - simpl. by rewrite lookup_empty.
  - rewrite Hc, Ht. simpl.
    assert (Hold : cache (glob w) !! q = Some t →
      ∃ src, compile src = inr t ∧
        ReadDone q (inr src)
          ∈ since_clear (ReadDone p (readFile p) :: trace (glob w))).
    { intros Hq. destruct (Hok q t Hq) as (src & ? & ?).
      exists src. split; [done|]. by apply since_clear_cons_elem. }
    destruct (readFile p) as [e|src] eqn:Hr; [done|].
    destruct (compile src) as [x|t'] eqn:Hcomp; [done|].
    destruct (decide (p = q)) as [->|Hne].
    + rewrite lookup_insert_eq. intros [= ->]. exists src.
      split; [done|]. by left.
    + by rewrite lookup_insert_ne.
Qed.

Lemma run_cache_ok ls (w : World) :
  cache_ok (glob w) → cache_ok (glob (run ls w)).
Proof.
  revert w. induction ls as [|l ls IH]; intros w Hok; [done|].
  rewrite run_cons. by apply IH, step_cache_ok.
Qed.

(** An entry of the cache was there before or is the compilation of what
    the file reads as. *)
Lemma step_cache_lookup l (w : World) tmplPath t :
  cache (glob (step l w)) !! tmplPath = Some t →
  cache (glob w) !! tmplPath = Some t ∨
  ∃ src, readFile tmplPath = inr src ∧ compile src = inr t.
Proof.
  destruct (step_glob l w)
    as [(Hc & _)|[[_ ->]|(n & i & c & p & k & _ & _ & _ & _ & Hc)]].
  - rewrite Hc. by left.
  - simpl. by rewrite lookup_empty.
  - rewrite Hc. simpl. destruct (readFile p) as [e|src] eqn:Hr; [by left|].
    destruct (compile src) as [x|t'] eqn:Hcomp; [by left|].
    destruct (decide (p = tmplPath)) as [->|Hne].
    + rewrite lookup_insert_eq. intros [= ->]. right. eauto.
    + rewrite lookup_insert_ne by done. by left.
Qed.

Lemma run_cache_lookup ls (w : World) tmplPath t :
  cache (glob (run ls w)) !! tmplPath = Some t →
  cache (glob w) !! tmplPath = Some t ∨
  ∃ src, readFile tmplPath = inr src ∧ compile src = inr t.
Proof.
  revert w. induction ls as [|l ls IH]; intros w H; [by left|].
  rewrite run_cons in H. destruct (IH _ H) as [H1|H1]; [|by right].
  by apply (step_cache_lookup l).
Qed.

(** *** A main template that cannot be read *)

Lemma elem_of_delete_other {A} (l : list A) i x y :
  l !! i = Some y → x ∈ l → x ≠ y → x ∈ delete i l.
Proof.
  intros Hi Hx Hne. rewrite (delete_Permutation _ _ _ Hi) in Hx.
  apply elem_of_cons in Hx as [->|Hx]; done.
Qed.

Lemma elem_of_delete_inv {A} (l : list A) i x : x ∈ delete i l → x ∈ l.
Proof. intros Hx. eapply elem_of_sublist; [done|apply sublist_delete]. Qed.

(** What the callback of a partial does while the main template waits. *)
Lemma mapObj_next_while_main_waits name x g c :
  is_Some (rf_callback c) → delivered c = [] →
  (par c = ParWaiting ∨ ∃ ps, par c = ParPartials ps) →
  let '((g', c'), _) :=
    mapObj_next (parallel_task1 renderFile_callback) name x (g, c) in
  pending c' = pending c ∧ rf_callback c' = rf_callback c ∧
  ((delivered c' = [] ∧ (par c' = ParWaiting ∨ ∃ ps, par c' = ParPartials ps)) ∨
   (∃ e, x = inl e ∧ delivered c' = [inl e] ∧ par c' = ParFailed)).
Proof.
  intros [f Hcb] Hd Hp.
  assert (Hquiet : ∀ c1, pending c1 = pending c → rf_callback c1 = rf_callback c →
    delivered c1 = [] → par c1 = par c →
    pending c1 = pending c ∧ rf_callback c1 = rf_callback c ∧
    ((delivered c1 = [] ∧ (par c1 = ParWaiting ∨ ∃ ps, par c1 = ParPartials ps)) ∨
     (∃ e, x = inl e ∧ delivered c1 = [inl e] ∧ par c1 = ParFailed))).
  { intros c1 ? ? ? Hp1. do 2 (split; [done|]). left. by rewrite Hp1. }
  unfold mapObj_next, each_done, mapObj_callback, parallel_task1.
  munfold; simpl. destruct x as [e|t]; simpl.
  - destruct (each_live c); simpl; [|by apply Hquiet].
    destruct Hp as [Hp|[ps Hp]]; rewrite Hp; simpl.
    + rewrite renderFile_callback_err. simpl. rewrite Hcb. simpl.
      do 2 (split; [done|]). right. exists e. by rewrite Hd.
    + apply Hquiet; simpl; by rewrite ?Hp.
  - case_decide; [|by apply Hquiet].
    destruct (each_live c); simpl; [|by apply Hquiet].
    destruct Hp as [Hp|[ps Hp]]; rewrite Hp; simpl.
    + do 2 (split; [done|]). left. eauto.
    + apply Hquiet; simpl; by rewrite ?Hp.
Qed.

Lemma fire_main_fails tmplPath e (E : Err → Prop) g c i ev :
  readFile tmplPath = inl e → E e →
  main_fails tmplPath E c → pending c !! i = Some ev →
  let '((g', c'), r) :=
    fire renderFile_callback ev (g, set_pending (delete i (pending c)) c) in
  main_fails tmplPath E (note r c').
Proof.
  intros Hr HE [Hcb Hinv] Hi.
  set (c0 := set_pending (delete i (pending c)) c).
  destruct Hinv as [(Hd & Hp & Hmain & Hall)|(e' & Hd & Hp & HE')].
  - assert (Hev : ev ∈ pending c) by (eapply list_elem_of_lookup_2; eauto).
    rewrite fire_spec.
    destruct (Hall ev Hev) as [->|[[name Hk] Herr]].
    + (* the read of the main template completes *)
      rewrite (load_of_main_failure tmplPath e Hr). simpl.
      rewrite task0_err by done. unfold mbind, M_bind.
      rewrite renderFile_callback_err.
      destruct Hcb as [f Hcb].
      assert (Hcb0 : rf_callback c0 = Some f) by exact Hcb.
      rewrite Hcb0. simpl.
      split; [by rewrite ?Hcb0|]. right. exists e. by rewrite Hd.
    + assert (Hkeep : Read tmplPath KMain ∈ pending c0 ∧
        ∀ ev', ev' ∈ pending c0 →
          ev' = Read tmplPath KMain ∨
          ((∃ name, ev_cont ev' = KPartial name) ∧
           ∀ e', load_of ev' = LoadErr e' → E e')).
      { split.
        - apply (elem_of_delete_other (pending c) i _ ev Hi Hmain).
          intros <-. simpl in Hk. congruence.
        - intros ev' Hev'. apply Hall.
          apply (elem_of_delete_inv _ i). exact Hev'. }
      destruct Hkeep as [Hmain0 Hall0].
      destruct (load_of ev) as [e'|x|t] eqn:Hl; rewrite ?Hk; simpl.
      * pose proof (mapObj_next_while_main_waits name (inl e')
          (after_load ev g) c0 Hcb Hd Hp) as H.
        destruct (mapObj_next _ _ _ _) as [[g' c'] r].
        destruct H as (Hpend & Hcb' & H).
        assert (main_fails tmplPath E c') as HQ; [|by destruct r].
        split; [by rewrite Hcb'|].
        destruct H as [[Hd' Hp']|(e1 & [= <-] & Hd' & Hp')].
        -- left. rewrite Hpend. done.
        -- right. exists e'. eauto.
      * split; [done|]. left. done.
      * pose proof (mapObj_next_while_main_waits name (inr t)
          (after_load ev g) c0 Hcb Hd Hp) as H.
        destruct (mapObj_next _ _ _ _) as [[g' c'] r].
        destruct H as (Hpend & Hcb' & H).
        assert (main_fails tmplPath E c') as HQ; [|by destruct r].
        split; [by rewrite Hcb'|].
        destruct H as [[Hd' Hp']|(e1 & [=] & _)].
        left. rewrite Hpend. done.
  - (* the error was delivered: the join has failed *)
    pose proof (fire_post ev g c0) as Hpost.
    destruct (fire renderFile_callback ev (g, c0)) as [[g' c'] r].
    destruct Hpost as (_ & _ & _ & _ & _ & Hcb' & _ & _ & Hset & _).
    destruct (Hset (or_intror Hp)) as [Hp' Hd'].
    assert (main_fails tmplPath E c') as HQ; [|by destruct r].
    split; [by rewrite Hcb'|]. right. exists e'. rewrite Hd', Hp'. done.
Qed.
(** *** Worked-out calls and the claims *)

(** [render] with a function as third argument, worked out. *)
Lemma render_fn tmplPath data f callback g :
  render tmplPath data (OptsFn f) callback g
  = (mkGlobal (cache g) (registry g)
       (heap g ++ [mkOptions (Some ∅) (Some ∅)])
       (lookup_obs g tmplPath ++ trace g),
     Some (mkCall data (length (heap g)) (Some f) (ParPartials ∅) 0 0 true ∅
             [lookup_event g tmplPath KMain] [] []),
     inr tt).
Proof.
  unfold ducktail.render. rewrite render_args_fn.
  unfold ducktail.renderFile, renderFile_body. unfold mbind, M_bind.
  rewrite opts_partials_spec. simpl.
  rewrite lookup_app_r, Nat.sub_diag by done. simpl.
  rewrite _get_spec. by rewrite map_to_list_empty.
Qed.

Lemma callCount_cons (o : Obs Err) tr :
  callCount (o :: tr) = (if is_ReadCall o then 1 else 0) + callCount tr.
Proof.
  unfold callCount. rewrite filter_cons.
  destruct o; simpl; try case_decide; done.
Qed.

Lemma step_fire n i c ev (w : World) :
  calls w !! n = Some c → pending c !! i = Some ev →
  step (Fire n i) w
  = let '((g', c'), r) :=
      fire renderFile_callback ev
        (glob w, set_pending (delete i (pending c)) c) in
    mkWorld g' (<[n := note r c']> (calls w)).
Proof. intros Hn Hi. simpl. by rewrite Hn, Hi. Qed.

(** C7: after [clearCache] no path has an entry in the cache, so that the
    lookup of any path, cached before or not, goes to the file: [_getTmpl]
    is [_returnRead], and a render calls fs.readFile once more. *)
Theorem clearCache_empties_the_cache g :
  (∀ tmplPath, cache (clearCache g) !! tmplPath = None) ∧
  (∀ tmplPath k c,
     _getTmpl tmplPath k (clearCache g, c)
     = _returnRead tmplPath k (clearCache g, c)) ∧
  (∀ tmplPath data f callback,
     ∃ g' c, render tmplPath data (OptsFn f) callback (clearCache g)
             = (g', Some c, inr tt) ∧
       pending c = [Read tmplPath KMain] ∧
       callCount (trace g') = S (callCount (trace g))).
Proof.
  split; [|split].
  - intros p. simpl. apply lookup_empty.
  - intros p k c. unfold _getTmpl, cache_get. munfold; simpl.
    by rewrite lookup_empty.
  - intros p d f cb. rewrite render_fn. eexists _, _. split; [done|].
    unfold lookup_event, lookup_obs. simpl. rewrite lookup_empty.
    split; [done|]. simpl. by rewrite !callCount_cons.
Qed.

(** C8: when the third argument of [render] is a function, it becomes the
    callback and the options are a new empty object; the partials and the
    helpers of the options are set to empty objects when they are absent;
    and the call is [renderFile] on the options so normalized. *)
Theorem render_normalizes_then_delegates tmplPath data callback g :
  (∀ f,
     render tmplPath data (OptsFn f) callback g
     = (let g1 := set_heap (λ h, h ++ [mkOptions (Some ∅) (Some ∅)]) g in
        let '((g2, c), r) :=
          renderFile tmplPath data (length (heap g)) (Some f) g1 in
        (g2, Some c, r)) ∧
     ∃ g2 c r, render tmplPath data (OptsFn f) callback g = (g2, Some c, r) ∧
       rf_callback c = Some f) ∧
  (∀ o obj, heap g !! o = Some obj →
     render tmplPath data (OptsObj o) callback g
     = (let obj' := mkOptions (Some (default ∅ (opt_partials obj)))
                      (Some (default ∅ (opt_helpers obj))) in
        let g1 := set_heap <[o := obj']> g in
        let '((g2, c), r) := renderFile tmplPath data o callback g1 in
        (g2, Some c, r))).
Proof.
  split.
  - intros f. split.
    + unfold ducktail.render. by rewrite render_args_fn.
    + rewrite render_fn. by eexists _, _, _.
  - intros o obj Ho. unfold ducktail.render.
    by rewrite (render_args_obj _ obj).
Qed.

(** C10: [render] writes the defaults into the options object of the
    caller: after the call that object has partials and helpers, empty
    where they were absent, and the other objects are as before.  With
    null as options [render] raises a TypeError and does nothing else. *)
Theorem render_writes_the_defaults_in_place tmplPath data callback g :
  (∀ o obj g' activation r,
     heap g !! o = Some obj →
     render tmplPath data (OptsObj o) callback g = (g', activation, r) →
     heap g' !! o = Some (mkOptions (Some (default ∅ (opt_partials obj)))
                            (Some (default ∅ (opt_helpers obj)))) ∧
     ∀ o', o' ≠ o → heap g' !! o' = heap g !! o') ∧
  render tmplPath data OptsNull callback g = (g, None, inl TypeError).
Proof.
  split; [|done].
  intros o obj g' activation r Ho. unfold ducktail.render.
  rewrite (render_args_obj _ obj) by done.
  pose proof (renderFile_global tmplPath data o callback
    (set_heap <[o := mkOptions (Some (default ∅ (opt_partials obj)))
                       (Some (default ∅ (opt_helpers obj)))]> g)) as H.
  destruct (renderFile _ _ _ _ _) as [[g2 c2] r2].
  destruct H as (_ & Hh & _). intros [= <- <- <-]. rewrite Hh. simpl. split.
  - apply list_lookup_insert_eq. by eapply lookup_lt_Some.
  - intros o' Hne. by apply list_lookup_insert_ne.
Qed.

Lemma step_render_fn tmplPath data f callback (w : World) :
  step (CallRender tmplPath data (OptsFn f) callback) w
  = mkWorld
      (mkGlobal (cache (glob w)) (registry (glob w))
         (heap (glob w) ++ [mkOptions (Some ∅) (Some ∅)])
         (lookup_obs (glob w) tmplPath ++ trace (glob w)))
      (calls w ++
         [mkCall data (length (heap (glob w))) (Some f) (ParPartials ∅) 0 0
            true ∅ [lookup_event (glob w) tmplPath KMain] [] []]).
Proof. simpl. by rewrite render_fn. Qed.

(** C5: the lookup of a cached path calls fs.readFile not at all and
    changes nothing but the event loop, where it leaves the tick that
    hands the cached template to the callback: the callback runs when the
    tick fires, not during the lookup.  So of two renders of a path, the
    second after the first completed, only the first reads the file. *)
Theorem cached_template_needs_no_read tmplPath t :
  (∀ g c k, cache g !! tmplPath = Some t →
     _getTmpl tmplPath k (g, c)
     = ((g, set_pending (pending c ++ [Tick t k]) c), inr tt)) ∧
  (∀ cb k g c, fire cb (Tick t k) (g, c) = apply_cont cb k (inr t) (g, c)) ∧
  (∀ (w : World) src d1 d2 f1 f2 callback1 callback2,
     cache (glob w) !! tmplPath = None →
     readFile tmplPath = inr src → compile src = inr t →
     let n := length (calls w) in
     let w' := run [CallRender tmplPath d1 (OptsFn f1) callback1; Fire n 0;
                    CallRender tmplPath d2 (OptsFn f2) callback2;
                    Fire (S n) 0] w in
     callCount (trace (glob w')) = S (callCount (trace (glob w)))).
Proof.
  split; [|split].
  - intros g c k Hc. rewrite _getTmpl_spec.
    unfold lookup_obs, lookup_event. rewrite Hc. by destruct g.
  - done.
  - intros w src d1 d2 f1 f2 callback1 callback2 Hc Hr Hcomp n w'. subst w'.
    rewrite !run_cons. change (run [] ?w) with w.
    (* the first render misses the cache and reads *)
    rewrite (step_render_fn tmplPath d1 f1 callback1 w).
    unfold lookup_obs at 1, lookup_event at 1. rewrite Hc.
    match goal with |- context [step (Fire n 0) ?x] => set (w1 := x) end.
    assert (Hn : calls w1 !! n = Some
      (mkCall d1 (length (heap (glob w))) (Some f1) (ParPartials ∅) 0 0 true ∅
         [Read tmplPath KMain] [] [])) by apply list_lookup_middle, eq_refl.
    rewrite (step_fire n 0 _ (Read tmplPath KMain) w1 Hn eq_refl).
    match goal with |- context [fire renderFile_callback ?ev (?g, ?c)] =>
      pose proof (fire_post ev g c) as Hpost;
      destruct (fire renderFile_callback ev (g, c)) as [[g2 c2] r2] end.
    destruct Hpost as (Hcache & Htrace & _). simpl in Hcache, Htrace.
    rewrite Hr, Hcomp in Hcache, Htrace. simpl in Hcache.
    (* the second one hits it *)
    rewrite (step_render_fn tmplPath d2 f2 callback2). cbn [glob calls].
    unfold lookup_obs at 1, lookup_event at 1.
    rewrite Hcache, lookup_insert_eq.
    match goal with |- context [step (Fire (S n) 0) ?x] => set (w3 := x) end.
    assert (Hn' : calls w3 !! S n = Some
      (mkCall d2 (length (heap g2)) (Some f2) (ParPartials ∅) 0 0 true ∅
         [Tick t KMain] [] [])).
    { apply list_lookup_middle. rewrite length_insert. unfold w1; simpl.
      rewrite length_app. simpl. unfold n. lia. }
    rewrite (step_fire (S n) 0 _ (Tick t KMain) w3 Hn' eq_refl).
    match goal with |- context [fire renderFile_callback ?ev (?g, ?c)] =>
      pose proof (fire_post ev g c) as Hpost;
      destruct (fire renderFile_callback ev (g, c)) as [[g4 c4] r4] end.
    destruct Hpost as (_ & Htrace4 & _). simpl in Htrace4.
    cbn [glob]. rewrite Htrace4. cbn [trace app]. rewrite Htrace. simpl.
    by rewrite !callCount_cons.
Qed.

(** A render of a path that is not cached and cannot be read starts in a
    state that [main_fails] covers. *)
Lemma render_main_fails tmplPath e data opts callback g g1 c1 r :
  readFile tmplPath = inl e → cache g !! tmplPath = None →
  render tmplPath data opts callback g = (g1, Some c1, r) →
  is_Some (rf_callback c1) →
  main_fails tmplPath (λ e', ∀ f, opts = OptsFn f → e' = e) (note r c1).
Proof.
  intros Hr Hc Hrender Hcb.
  assert (Hevm : ∀ g0 : Global, cache g0 = cache g →
    lookup_event g0 tmplPath KMain = Read tmplPath KMain).
  { intros g0 H0. unfold lookup_event. by rewrite H0, Hc. }
  destruct opts as [f|o|].
  - rewrite render_fn in Hrender. injection Hrender as <- <- <-.
    rewrite (Hevm g eq_refl).
    split; [by eexists|]. left. simpl.
    do 2 (split; [eauto|]). split; [by left|].
    intros ev Hev. apply list_elem_of_singleton in Hev. by left.
  - unfold ducktail.render in Hrender.
    destruct (heap g !! o) as [obj|] eqn:Ho;
      [|by rewrite render_args_dangling in Hrender].
    rewrite (render_args_obj _ obj) in Hrender by done.
    unfold ducktail.renderFile, renderFile_body in Hrender.
    unfold mbind, M_bind in Hrender.
    rewrite opts_partials_spec in Hrender. simpl in Hrender.
    rewrite list_lookup_insert_eq in Hrender by (by eapply lookup_lt_Some).
    simpl in Hrender. rewrite _get_spec in Hrender.
    injection Hrender as <- <- <-.
    rewrite Hevm by done.
    split; [done|]. left. simpl. split; [done|].
    split; [|split; [by left|]].
    + destruct (map_to_list _); eauto.
    + intros ev Hev. apply elem_of_cons in Hev as [->|Hev]; [by left|].
      right. apply list_elem_of_fmap in Hev as ([name p] & -> & _). simpl.
      split; [|done]. exists name. apply ev_cont_lookup_event.
  - done.
Qed.

Lemma load_of_read_failure tmplPath k e :
  readFile tmplPath = inl e → load_of (Read tmplPath k) = LoadErr e.
Proof. intros H. simpl. by rewrite H. Qed.




(** C6: [_get] looks the main template and every partial up in the same
    way, [_getTmpl]: it leaves one waiting callback per lookup, a tick with
    the cached template where the path is in the cache and the completion
    of a read where it is not.  While no lookup has failed, the callback
    that fires either leaves the join under way; or its lookup fails, and
    the callback of [_get] is called with that (first) error and nothing
    else; or it is the last one, and the callback of [_get] is called with
    the compiled main template and the mapping of every partial name to its
    compiled template; or the compilation of the text read raises.  After
    the failure the callbacks that fire do not call the callback of [_get]
    again.  The callback that [renderFile] gives to [_get] hands an error
    to the caller's callback and does not render. *)
Theorem get_joins_template_and_partials tmplPath (ps : gmap string string)
    g c :
  pending c = [] →
  let evm := lookup_event g tmplPath KMain in
  let evs := partial_events g ps in
  (∀ cb, ∃ g' c',
     _get tmplPath (Some ps) cb (g, c) = ((g', c'), inr tt) ∧
     cache g' = cache g ∧
     pending c'
     = evm :: map (λ kv, lookup_event g kv.2 (KPartial kv.1)) (map_to_list ps) ∧
     Running evm evs evs c') ∧
  (∀ todo g1 c1 i ev,
     Running evm evs todo c1 → pending c1 !! i = Some ev →
     let st0 := (g1, set_pending (delete i (pending c1)) c1) in
     let g2 := after_load ev g1 in
     (∃ t c2 todo', load_of ev = LoadOk t ∧
        (∀ cb, fire cb ev st0 = ((g2, c2), inr tt)) ∧
        Running evm evs todo' c2) ∨
     (∃ e c2 f, load_of ev = LoadErr e ∧
        (∀ cb, fire cb ev st0 = (cb (inl e);; on_call f) (g2, c2)) ∧
        ∀ c3, par (f c3) = ParFailed) ∨
     (∃ t m c2,
        (∀ cb, fire cb ev st0 = cb (inr (t, m)) (g2, c2)) ∧
        par c2 = ParDone ∧ pending c2 = [] ∧
        load_of evm = LoadOk t ∧ mapping_ok evs m) ∨
     (∃ x, load_of ev = LoadRaise x ∧
        ∀ cb, fire cb ev st0 = ((g2, st0.2), inl (Raised x)))) ∧
  (∀ cb1 cb2 ev g1 c1,
     par c1 = ParFailed → fire cb1 ev (g1, c1) = fire cb2 ev (g1, c1)) ∧
  (∀ e g1 c1,
     renderFile_callback (inl e) (g1, c1) =
       match rf_callback c1 with
       | None => ((g1, c1), inl TypeError)
       | Some _ => ((g1, set_delivered (delivered c1 ++ [inl e]) c1), inr tt)
       end).
Proof.
  intros Hpend evm evs. split; [|split; [|split]];
    [| |apply fire_failed|apply renderFile_callback_err].
  - intros cb. destruct (_get_running tmplPath ps cb g c Hpend)
      as (g' & c' & Hget & Hc & _ & _ & _ & HR).
    exists g', c'. split; [done|]. split; [done|]. split; [|done].
    rewrite _get_spec in Hget. injection Hget as _ <-. simpl.
    by rewrite Hpend.
  - intros todo g1 c1 i ev HR Hi.
    destruct (fire_running evm evs todo g1 c1 i ev HR Hi)
      as [(t & c2 & todo' & ? & ? & _ & ?)
         |[(e & c2 & f & ? & _ & ? & _ & _ & Hf)
          |[(t & m & c2 & ? & _ & ? & ? & ? & ?)|(x & ? & ?)]]].
    + left. by exists t, c2, todo'.
    + right; left. exists e, c2, f. do 2 (split; [done|]).
      intros c3. apply Hf.
    + right; right; left. by exists t, m, c2.
    + right; right; right. by exists x.
Qed.

(** *** Further properties of the code *)

Local Abbreviation cache_current :=
  (@cache_current Helper Template EngineErr Err compile readFile).

Lemma registry_eta (r : Registry) :
  mkRegistry (reg_partials r) (reg_helpers r) = r.
Proof. by destruct r. Qed.


(** X2: called without options, [renderTmpl] registers and unregisters
    nothing: the template runs on the registry as it is, and the registry
    is unchanged whether the template returns or raises. *)
Theorem renderTmpl_without_options tmpl data (r : Registry) :
  renderTmpl tmpl data None r
  = (r, match resolve compile tmpl with
        | inl e => inl (Raised e)
        | inr t =>
            match invoke t r data with
            | inl e => inl (Raised e)
            | inr s => inr s
            end
        end).
Proof.
  rewrite renderTmpl_spec. destruct (resolve compile tmpl) as [e|t]; [done|].
  simpl. rewrite register_spec, unregister_spec. simpl.
  rewrite !(left_id_L ∅ (∪)), !map_difference_empty, registry_eta.
  by destruct (invoke t r data).
Qed.

Lemma union_union_same {V} (ps m : gmap string V) : ps ∪ (ps ∪ m) = ps ∪ m.
Proof.
  apply map_eq; intros i. rewrite !lookup_union.
  by destruct (ps !! i), (m !! i).
Qed.

Lemma difference_difference_same {V} (ps m : gmap string V) :
  (m ∖ ps) ∖ ps = m ∖ ps.
Proof.
  apply map_eq; intros i. rewrite !lookup_difference.
  by destruct (ps !! i), (m !! i).
Qed.

Lemma difference_union_same {V} (ps m : gmap string V) :
  (ps ∪ m) ∖ ps = m ∖ ps.
Proof.
  apply map_eq; intros i. rewrite !lookup_difference, lookup_union.
  by destruct (ps !! i), (m !! i).
Qed.

Lemma union_difference_same {V} (ps m : gmap string V) :
  ps ∪ (m ∖ ps) = ps ∪ m.
Proof.
  apply map_eq; intros i. rewrite !lookup_union, lookup_difference.
  by destruct (ps !! i), (m !! i).
Qed.

(** X3: how [_register] and [_unregister] compose for the same options:
    each is idempotent, and the second of the two undoes or overrides the
    first, whatever the registry held. *)
Theorem register_unregister_compose (opts : TmplOpts Template Helper)
    (r : Registry) :
  _register opts (_register opts r) = _register opts r ∧
  _unregister opts (_unregister opts r) = _unregister opts r ∧
  _unregister opts (_register opts r) = _unregister opts r ∧
  _register opts (_unregister opts r) = _register opts r.
Proof.
  rewrite !register_spec, !unregister_spec. simpl.
  rewrite !union_union_same, !difference_difference_same,
    !difference_union_same, !union_difference_same.
  done.
Qed.

(** [render] with an options object, worked out. *)
Lemma render_obj tmplPath data o obj callback g :
  heap g !! o = Some obj →
  let ps := default ∅ (opt_partials obj) in
  let l := map_to_list ps in
  render tmplPath data (OptsObj o) callback g
  = (mkGlobal (cache g) (registry g)
       (<[o := mkOptions (Some ps) (Some (default ∅ (opt_helpers obj)))]>
          (heap g))
       (foldl (λ tr p, lookup_obs g p ++ tr) (trace g) (tmplPath :: l.*2)),
     Some (mkCall data o callback
             (match l with [] => ParPartials ∅ | _ => ParWaiting end)
             (length l) 0 true ∅
             (lookup_event g tmplPath KMain ::
                map (λ kv, lookup_event g kv.2 (KPartial kv.1)) l)
             [] []),
     inr tt).
Proof.
  intros Ho ps l. unfold ducktail.render.
  rewrite (render_args_obj _ obj) by done.
  unfold ducktail.renderFile, renderFile_body. unfold mbind, M_bind.
  rewrite opts_partials_spec. simpl.
  rewrite list_lookup_insert_eq by (by eapply lookup_lt_Some).
  simpl. rewrite _get_spec. fold ps. fold l. simpl.
  by destruct l.
Qed.

Lemma callCount_app (tr1 tr2 : list (Obs Err)) :
  callCount (tr1 ++ tr2) = callCount tr1 + callCount tr2.
Proof. unfold callCount. by rewrite filter_app, length_app. Qed.

Lemma callCount_lookup_obs g tmplPath :
  callCount (lookup_obs g tmplPath)
  = length (filter (λ p, cache g !! p = None) [tmplPath]).
Proof.
  unfold lookup_obs. rewrite filter_cons, filter_nil.
  destruct (cache g !! tmplPath); by case_decide.
Qed.

Lemma callCount_foldl_lookup_obs g tr (l : list string) :
  callCount (foldl (λ tr p, lookup_obs g p ++ tr) tr l)
  = callCount tr + length (filter (λ p, cache g !! p = None) l).
Proof.
  revert tr. induction l as [|p l IH]; intros tr; simpl; [lia|].
  rewrite IH, callCount_app, callCount_lookup_obs, filter_cons.
  rewrite filter_cons, filter_nil. case_decide; simpl; lia.
Qed.

(** X4: [render] with a function or an options object returns without
    having called the callback, also when every template is cached, and
    leaves one waiting callback for the template and one for every
    partial. *)
Theorem render_returns_before_calling_back tmplPath data callback g :
  (∀ f, ∃ g' c,
     render tmplPath data (OptsFn f) callback g = (g', Some c, inr tt) ∧
     delivered c = [] ∧ raised c = [] ∧ length (pending c) = 1) ∧
  (∀ o obj, heap g !! o = Some obj →
     ∃ g' c,
       render tmplPath data (OptsObj o) callback g = (g', Some c, inr tt) ∧
       delivered c = [] ∧ raised c = [] ∧
       length (pending c) = S (size (default ∅ (opt_partials obj)))).
Proof.
  split.
  - intros f. rewrite render_fn. by eexists _, _.
  - intros o obj Ho. rewrite (render_obj _ _ _ obj) by done.
    eexists _, _. split; [done|]. do 2 (split; [done|]). simpl.
    by rewrite length_map, length_map_to_list.
Qed.

(** X5: [render] calls fs.readFile once for every path, of the template
    and of the partials, that is not in the cache when it is called, a
    path that occurs twice counting twice; it calls it for no cached path
    and leaves the cache as it is. *)
Theorem render_reads_every_uncached_path tmplPath data o obj callback g :
  heap g !! o = Some obj →
  let paths := tmplPath :: (map_to_list (default ∅ (opt_partials obj))).*2 in
  ∃ g' c,
    render tmplPath data (OptsObj o) callback g = (g', Some c, inr tt) ∧
    cache g' = cache g ∧
    callCount (trace g')
    = callCount (trace g)
      + length (filter (λ p, cache g !! p = None) paths).
Proof.
  intros Ho paths. rewrite (render_obj _ _ _ obj) by done.
  eexists _, _. split; [done|]. split; [done|].
  cbn [trace]. apply callCount_foldl_lookup_obs.
Qed.

(** X6: the cache is filled when a read completes, not when it starts:
    two renders of a path that is not cached, the second called before the
    read of the first has completed, both call fs.readFile. *)
Theorem renders_in_flight_both_read (w : World) tmplPath d1 d2 f1 f2
    callback1 callback2 :
  cache (glob w) !! tmplPath = None →
  callCount (trace (glob (run [CallRender tmplPath d1 (OptsFn f1) callback1;
                               CallRender tmplPath d2 (OptsFn f2) callback2]
                            w)))
  = 2 + callCount (trace (glob w)).
Proof.
  intros Hc. rewrite !run_cons. change (run [] ?x) with x.
  rewrite !step_render_fn. cbn [glob trace cache].
  unfold lookup_obs. cbn [cache]. rewrite Hc. simpl.
  by rewrite !callCount_cons.
Qed.

Lemma trace_after_load ev g :
  trace (after_load ev g)
  = match ev with
    | Tick _ _ => trace g
    | Read tmplPath _ => ReadDone tmplPath (readFile tmplPath) :: trace g
    end.
Proof.
  destruct ev as [t k|p k]; simpl; [done|].
  destruct (readFile p) as [e|src]; [done|]. by destruct (compile src).
Qed.

(** X7: fs.readFile is called by [render] and [renderFile] only: a waiting
    callback that runs, [clearCache], [renderTmpl] and what the caller does
    to an options object start no read. *)
Theorem only_render_calls_readFile l (w : World) :
  match l with
  | CallRender _ _ _ _ | CallRenderFile _ _ _ _ =>
      callCount (trace (glob w)) ≤ callCount (trace (glob (step l w)))
  | _ => callCount (trace (glob (step l w))) = callCount (trace (glob w))
  end.
Proof.
  destruct l as [p d o cb|p d o cb|tmpl d o| |obj|o obj|n i].
  - simpl. pose proof (render_global p d o cb (glob w)) as H.
    destruct (render p d o cb (glob w)) as [[g' [c|]] r];
      destruct H as (_ & _ & tr & Htr & _); simpl;
      rewrite Htr, callCount_app; lia.
  - simpl. pose proof (renderFile_global p d o cb (glob w)) as H.
    destruct (renderFile p d o cb (glob w)) as [[g' c] r].
    destruct H as (_ & _ & _ & tr & Htr & _); simpl.
    rewrite Htr, callCount_app; lia.
  - simpl. by destruct (renderTmpl tmpl d o _).
  - simpl. by rewrite callCount_cons.
  - done.
  - done.
  - simpl. destruct (calls w !! n) as [c|]; [|done].
    destruct (pending c !! i) as [ev|]; [|done].
    pose proof (fire_post ev (glob w) (set_pending (delete i (pending c)) c))
      as H.
    destruct (fire _ _ _) as [[g' c'] r]. destruct H as (_ & Htr & _).
    simpl. rewrite Htr, trace_after_load.
    destruct ev as [t k|p k]; [done|]. by rewrite callCount_cons.
Qed.

Lemma pending_note (r : Exn + unit) c : pending (note r c) = pending c.
Proof. by destruct r. Qed.

Lemma fire_pending ev g c :
  let '((g', c'), r) := fire renderFile_callback ev (g, c) in
  pending (note r c') = pending c.
Proof.
  pose proof (fire_post ev g c) as H.
  destruct (fire renderFile_callback ev (g, c)) as [[g' c'] r].
  destruct H as (_ & _ & _ & _ & _ & _ & _ & H & _).
  by rewrite pending_note.
Qed.

(** X8: a waiting callback schedules no other: the one that fires is
    taken off the event loop and the others stay in place; so at any later
    time the waiting callbacks of an activation are among those it has
    now, and an activation with none is over. *)
Theorem callbacks_schedule_nothing :
  (∀ (w : World) n i c ev,
     calls w !! n = Some c → pending c !! i = Some ev →
     ∃ c', calls (step (Fire n i) w) !! n = Some c' ∧
           pending c' = delete i (pending c)) ∧
  (∀ ls (w : World) n c,
     calls w !! n = Some c →
     ∃ c', calls (run ls w) !! n = Some c' ∧
           pending c' `sublist_of` pending c).
Proof.
  split.
  - intros w n i c ev Hn Hi. rewrite (step_fire n i c ev w Hn Hi).
    pose proof (fire_pending ev (glob w)
                  (set_pending (delete i (pending c)) c)) as H.
    destruct (fire _ _ _) as [[g' c'] r]. exists (note r c'). split; [|done].
    apply list_lookup_insert_eq. by eapply lookup_lt_Some.
  - intros ls w n c Hn.
    apply (run_call (λ c', pending c' `sublist_of` pending c)) with (c := c);
      [|done..].
    intros g c0 i ev H0 Hi.
    pose proof (fire_pending ev g (set_pending (delete i (pending c0)) c0))
      as H.
    destruct (fire _ _ _) as [[g' c'] r]. rewrite H. simpl.
    etrans; [apply sublist_delete|done].
Qed.

(** X9: [clearCache] empties the cache and cancels nothing: the
    activations and their waiting callbacks stay, and a read that was under
    way puts its template into the cache when it completes. *)
Theorem clearCache_keeps_reads_in_flight (w : World) n i c tmplPath k src t :
  calls w !! n = Some c → pending c !! i = Some (Read tmplPath k) →
  readFile tmplPath = inr src → compile src = inr t →
  let w1 := step CallClearCache w in
  calls w1 = calls w ∧ cache (glob w1) = ∅ ∧
  cache (glob (step (Fire n i) w1)) !! tmplPath = Some t.
Proof.
  intros Hn Hi Hr Hcomp w1. split; [done|]. split; [done|].
  rewrite (step_fire n i c (Read tmplPath k) w1 Hn Hi).
  pose proof (fire_post (Read tmplPath k) (glob w1)
                (set_pending (delete i (pending c)) c)) as H.
  destruct (fire _ _ _) as [[g' c'] r]. destruct H as (Hc & _).
  cbn [glob]. rewrite Hc. simpl. rewrite Hr, Hcomp. simpl.
  apply lookup_insert_eq.
Qed.

Lemma step_cache_stays l (w : World) tmplPath :
  l ≠ CallClearCache →
  is_Some (cache (glob w) !! tmplPath) →
  is_Some (cache (glob (step l w)) !! tmplPath).
Proof.
  intros Hl Hc.
  destruct (step_glob l w)
    as [[-> _]|[[-> _]|(n & i & c & p & k & _ & _ & _ & _ & ->)]];
    [done|done|].
  destruct (load_of (Read p k)); try done.
  rewrite lookup_insert_is_Some. destruct (decide (p = tmplPath)); auto.
Qed.

(** X10: only [clearCache] takes entries out of the cache: in a run
    without it a path that is cached stays cached. *)
Theorem cache_entries_stay_until_clearCache ls (w : World) tmplPath :
  Forall (λ l, l ≠ CallClearCache) ls →
  is_Some (cache (glob w) !! tmplPath) →
  is_Some (cache (glob (run ls w)) !! tmplPath).
Proof.
  intros Hls. revert w. induction Hls as [|l ls Hl _ IH]; intros w Hc; [done|].
  rewrite run_cons. by apply IH, step_cache_stays.
Qed.


Lemma heap_after_load ev g : heap (after_load ev g) = heap g.
Proof.
  destruct ev as [t k|p k]; simpl; [done|].
  destruct (readFile p) as [e|src]; [done|]. by destruct (compile src).
Qed.

Lemma registry_after_load ev g : registry (after_load ev g) = registry g.
Proof.
  destruct ev as [t k|p k]; simpl; [done|].
  destruct (readFile p) as [e|src]; [done|]. by destruct (compile src).
Qed.

(** The callback of the main template fires last and all goes well. *)
Lemma fire_main_last ev t m obj s r' g c :
  par c = ParPartials m → ev_cont ev = KMain → load_of ev = LoadOk t →
  heap g !! rf_opts c = Some obj → is_Some (rf_callback c) →
  renderTmpl (Compiled t) (rf_data c)
    (Some (mkTmplOpts (Some m) (opt_helpers obj))) (registry g) = (r', inr s) →
  fire renderFile_callback ev (g, c)
  = ((set_registry r' (after_load ev g),
      set_delivered (delivered c ++ [inr s]) (set_par ParDone c)), inr tt).
Proof.
  intros Hpar Hk Hload Hobj [f Hcb] Hrender.
  rewrite fire_spec, Hload, Hk. simpl.
  rewrite (task0_partials _ t m) by done.
  rewrite renderFile_callback_ok. simpl.
  rewrite heap_after_load, Hobj, registry_after_load, Hrender. simpl.
  by rewrite Hcb.
Qed.

Lemma cache_after_load_ok ev t g tmplPath k :
  ev = lookup_event g tmplPath k → load_of ev = LoadOk t →
  cache (after_load ev g) !! tmplPath = Some t.
Proof.
  unfold lookup_event. destruct (cache g !! tmplPath) as [t'|] eqn:Hc;
    intros -> Hload; simpl in *.
  - congruence.
  - destruct (readFile tmplPath) as [e|src]; [done|].
    destruct (compile src) as [x|t']; [done|]. simpl.
    rewrite lookup_insert_eq. congruence.
Qed.

(** X12: a render without options of a template that loads (from the
    cache, or by a read whose text compiles) and returns a string calls
    back with that string when its callback fires: with what the template
    gives on the registry as it is.  Nothing of the render is left
    waiting, the template is in the cache, and the registry is as before. *)
Theorem render_delivers_the_rendering (w : World) tmplPath data f callback
    t s :
  load_of (lookup_event (glob w) tmplPath KMain) = LoadOk t →
  invoke t (registry (glob w)) data = inr s →
  let n := length (calls w) in
  let w' := run [CallRender tmplPath data (OptsFn f) callback; Fire n 0] w in
  ∃ c, calls w' !! n = Some c ∧
       delivered c = [inr s] ∧ pending c = [] ∧ raised c = [] ∧
       cache (glob w') !! tmplPath = Some t ∧
       registry (glob w') = registry (glob w).
Proof.
  intros Hload Hinv n w'. subst w'. rewrite !run_cons. change (run [] ?x) with x.
  rewrite step_render_fn.
  match goal with |- context [step (Fire n 0) ?x] => set (w1 := x) end.
  set (evm := lookup_event (glob w) tmplPath KMain) in *.
  set (c1 := mkCall data (length (heap (glob w))) (Some f) (ParPartials ∅)
               0 0 true ∅ [evm] [] [] : Call).
  assert (Hn : calls w1 !! n = Some c1) by apply list_lookup_middle, eq_refl.
  rewrite (step_fire n 0 c1 evm w1 Hn eq_refl).
  assert (Hheap : heap (glob w1) !! length (heap (glob w))
                  = Some (mkOptions (Some ∅) (Some ∅) : Options Helper)).
  { simpl. by rewrite lookup_app_r, Nat.sub_diag. }
  assert (Hrender : renderTmpl (Compiled t) data
            (Some (mkTmplOpts (Some ∅) (Some ∅))) (registry (glob w))
          = (registry (glob w), inr s)).
  { rewrite renderTmpl_spec. unfold ducktail.resolve.
    change (default (mkTmplOpts None None) (Some ?o)) with o. cbv zeta.
    rewrite unregister_spec, register_spec. simpl.
    rewrite !(left_id_L ∅ (∪)), !map_difference_empty, registry_eta.
    by rewrite Hinv. }
  rewrite (fire_main_last evm t ∅ (mkOptions (Some ∅) (Some ∅)) s
             (registry (glob w)) (glob w1)
             (set_pending (delete 0 (pending c1)) c1) eq_refl
             (ev_cont_lookup_event _ _ _) Hload Hheap
             (mk_is_Some _ _ eq_refl) Hrender).
  eexists. split.
  - cbn [calls]. apply list_lookup_insert_eq. by eapply lookup_lt_Some.
  - do 3 (split; [done|]). cbn [glob]. split; [|done].
    by apply (cache_after_load_ok evm t _ tmplPath KMain).
Qed.

Lemma rf_data_note (r : Exn + unit) c : rf_data (note r c) = rf_data c.
Proof. by destruct r. Qed.

Lemma step_render_obj tmplPath data o obj callback (w : World) :
  heap (glob w) !! o = Some obj →
  let ps := default ∅ (opt_partials obj) in
  let l := map_to_list ps in
  step (CallRender tmplPath data (OptsObj o) callback) w
  = mkWorld
      (mkGlobal (cache (glob w)) (registry (glob w))
         (<[o := mkOptions (Some ps) (Some (default ∅ (opt_helpers obj)))]>
            (heap (glob w)))
         (foldl (λ tr p, lookup_obs (glob w) p ++ tr) (trace (glob w))
            (tmplPath :: l.*2)))
      (calls w ++
         [mkCall data o callback
            (match l with [] => ParPartials ∅ | _ => ParWaiting end)
            (length l) 0 true ∅
            (lookup_event (glob w) tmplPath KMain ::
               map (λ kv, lookup_event (glob w) kv.2 (KPartial kv.1)) l)
            [] []]).
Proof. intros Ho ps l. simpl. by rewrite (render_obj _ _ _ obj). Qed.




(** *** What a finished render leaves in the cache *)

(** A path that loads is cached, or a read of it waits in activation [n]. *)
Lemma step_cached_or_waiting l (w : World) n tmplPath src t :
  l ≠ CallClearCache →
  readFile tmplPath = inr src → compile src = inr t →
  is_Some (cache (glob w) !! tmplPath) ∨
    (∃ c k, calls w !! n = Some c ∧ Read tmplPath k ∈ pending c) →
  is_Some (cache (glob (step l w)) !! tmplPath) ∨
    (∃ c k, calls (step l w) !! n = Some c ∧ Read tmplPath k ∈ pending c).
Proof.
  intros Hl Hr Hcomp [Hc|(c & k & Hn & Hin)];
    [left; by apply step_cache_stays|].
  destruct l as [p d o cb|p d o cb|tmpl d o| |obj|o obj|m i]; try done.
  - right. exists c, k. split; [|done]. simpl.
    destruct (render p d o cb (glob w)) as [[g' [c0|]] r]; simpl; [|done].
    by apply lookup_app_l_Some.
  - right. exists c, k. split; [|done]. simpl.
    destruct (renderFile p d o cb (glob w)) as [[g' c0] r]; simpl.
    by apply lookup_app_l_Some.
  - right. exists c, k. split; [|done]. simpl.
    by destruct (renderTmpl tmpl d o _).
  - right. by exists c, k.
  - right. by exists c, k.
  - destruct (calls w !! m) as [cl|] eqn:Hm;
      [|right; exists c, k; simpl; by rewrite Hm].
    destruct (pending cl !! i) as [ev|] eqn:Hi;
      [|right; exists c, k; simpl; by rewrite Hm, Hi].
    rewrite (step_fire m i cl ev w Hm Hi).
    pose proof (fire_post ev (glob w) (set_pending (delete i (pending cl)) cl))
      as Hpost.
    pose proof (fire_pending ev (glob w)
                  (set_pending (delete i (pending cl)) cl)) as Hpend.
    destruct (fire _ _ _) as [[g' c'] r]. cbn [glob calls].
    destruct Hpost as (Hcache & _). simpl in Hpend.
    destruct (decide (m = n)) as [->|Hne];
      [|right; exists c, k; by rewrite list_lookup_insert_ne].
    assert (cl = c) as -> by congruence.
    assert (Hn' : <[n := note r c']> (calls w) !! n = Some (note r c')).
    { apply list_lookup_insert_eq. by eapply lookup_lt_Some. }
    destruct ev as [t' k'|p' k'].
    + right. exists (note r c'), k. split; [done|]. rewrite Hpend.
      by apply (elem_of_delete_other _ i _ (Tick t' k')).
    + destruct (decide (p' = tmplPath)) as [->|Hp].
      * left. rewrite Hcache. simpl. rewrite Hr, Hcomp. simpl.
        rewrite lookup_insert_eq. by eexists.
      * right. exists (note r c'), k. split; [done|]. rewrite Hpend.
        apply (elem_of_delete_other _ i _ (Read p' k')); [done..|congruence].
Qed.

Lemma run_cached_or_waiting ls (w : World) n tmplPath src t :
  Forall (λ l, l ≠ CallClearCache) ls →
  readFile tmplPath = inr src → compile src = inr t →
  is_Some (cache (glob w) !! tmplPath) ∨
    (∃ c k, calls w !! n = Some c ∧ Read tmplPath k ∈ pending c) →
  is_Some (cache (glob (run ls w)) !! tmplPath) ∨
    (∃ c k, calls (run ls w) !! n = Some c ∧ Read tmplPath k ∈ pending c).
Proof.
  intros Hls Hr Hcomp. revert w.
  induction Hls as [|l ls Hl _ IH]; intros w Hw; [done|].
  rewrite run_cons. apply IH. by apply (step_cached_or_waiting _ _ _ _ src t).
Qed.

(** When [render] has been called, each of its paths is cached or has a
    read waiting. *)
Lemma render_cached_or_waiting (w : World) tmplPath data o obj callback p :
  heap (glob w) !! o = Some obj →
  p ∈ tmplPath :: (map_to_list (default ∅ (opt_partials obj))).*2 →
  let w1 := step (CallRender tmplPath data (OptsObj o) callback) w in
  is_Some (cache (glob w1) !! p) ∨
    (∃ c k, calls w1 !! length (calls w) = Some c ∧ Read p k ∈ pending c).
Proof.
  intros Ho Hp w1. subst w1. rewrite (step_render_obj _ _ _ obj) by done.
  destruct (cache (glob w) !! p) as [t0|] eqn:Hc; [left; by eexists|].
  right.
  assert (Hev : ∀ k, lookup_event (glob w) p k = Read p k).
  { intros k. unfold lookup_event. by rewrite Hc. }
  apply elem_of_cons in Hp as [->|Hp].
  - eexists _, KMain. split; [by apply list_lookup_middle|].
    simpl. rewrite Hev. by left.
  - apply list_elem_of_fmap in Hp as ([name q] & -> & Hq).
    eexists _, (KPartial name). split; [by apply list_lookup_middle|].
    simpl. right. apply list_elem_of_fmap.
    exists (name, q). by rewrite Hev.
Qed.

(** X16: once all the callbacks of a render have run, every path of it
    that can be loaded is in the cache, whatever the order in which they
    ran and whatever the outcome of the render, unless [clearCache] was
    called in between. *)
Theorem finished_render_has_cached_its_paths (w : World) tmplPath data o obj
    callback ls c p src t :
  heap (glob w) !! o = Some obj →
  Forall (λ l, l ≠ CallClearCache) ls →
  let w' := run ls (step (CallRender tmplPath data (OptsObj o) callback) w) in
  calls w' !! length (calls w) = Some c → pending c = [] →
  p ∈ tmplPath :: (map_to_list (default ∅ (opt_partials obj))).*2 →
  readFile p = inr src → compile src = inr t →
  is_Some (cache (glob w') !! p).
Proof.
  intros Ho Hls w' Hn Hpend Hp Hr Hcomp. subst w'.
  pose proof (render_cached_or_waiting w tmplPath data o obj callback p Ho Hp)
    as Hstart.
  apply (run_cached_or_waiting ls _ _ p src t Hls Hr Hcomp) in Hstart.
  destruct Hstart as [?|(c0 & k & Hn0 & Hin)]; [done|].
  rewrite Hn in Hn0. injection Hn0 as <-.
  rewrite Hpend in Hin. by apply elem_of_nil in Hin.
Qed.

Lemma filter_uncached_nil g (l : list string) :
  (∀ p, p ∈ l → is_Some (cache g !! p)) →
  filter (λ p, cache g !! p = None) l = [].
Proof.
  induction l as [|p l IH]; intros Hl; [done|].
  rewrite filter_cons. destruct (Hl p) as [t Ht]; [by left|].
  case_decide; [congruence|]. apply IH. intros q Hq. apply Hl. by right.
Qed.

(** X17: the cache saves the reads of the partials too: when a render
    whose template and partials all load is over, and [clearCache] was not
    called in between, a render of the same template with the same partials
    calls fs.readFile not at all, however the callbacks of the first were
    ordered. *)
Theorem second_render_reads_nothing (w : World) tmplPath data o obj callback
    ls c data2 o2 obj2 callback2 :
  heap (glob w) !! o = Some obj →
  Forall (λ l, l ≠ CallClearCache) ls →
  let paths := tmplPath :: (map_to_list (default ∅ (opt_partials obj))).*2 in
  let w' := run ls (step (CallRender tmplPath data (OptsObj o) callback) w) in
  calls w' !! length (calls w) = Some c → pending c = [] →
  (∀ p, p ∈ paths → ∃ src t, readFile p = inr src ∧ compile src = inr t) →
  heap (glob w') !! o2 = Some obj2 →
  default ∅ (opt_partials obj2) = default ∅ (opt_partials obj) →
  callCount
    (trace (glob (step (CallRender tmplPath data2 (OptsObj o2) callback2) w')))
  = callCount (trace (glob w')).
Proof.
  intros Ho Hls paths w' Hn Hpend Hload Ho2 Hps.
  rewrite (step_render_obj _ _ _ obj2) by done. cbn [glob trace].
  rewrite callCount_foldl_lookup_obs, Hps. fold paths.
  rewrite filter_uncached_nil; [simpl; lia|].
  intros p Hp. destruct (Hload p Hp) as (src & t & Hr & Hcomp).
  pose proof (render_cached_or_waiting w tmplPath data o obj callback p Ho Hp)
    as Hstart.
  apply (run_cached_or_waiting ls _ _ p src t Hls Hr Hcomp) in Hstart.
  destruct Hstart as [?|(c0 & k & Hn0 & Hin)]; [done|].
  unfold w' in Hn. rewrite Hn in Hn0. injection Hn0 as <-.
  rewrite Hpend in Hin. by apply elem_of_nil in Hin.
Qed.

(** X18: after [render] has written the defaults, nothing writes to an
    options object but the caller: [renderFile], the callbacks that run
    from the event loop, [renderTmpl] and [clearCache] leave every options
    object as it is. *)
Theorem only_render_writes_the_options l (w : World) :
  match l with
  | CallRender _ _ _ _ | NewObject _ | SetObject _ _ => True
  | _ => heap (glob (step l w)) = heap (glob w)
  end.
Proof.
  destruct l as [p d o cb|p d o cb|tmpl d o| |obj|o obj|n i]; try done.
  - simpl. pose proof (renderFile_global p d o cb (glob w)) as H.
    destruct (renderFile p d o cb (glob w)) as [[g' c] r].
    by destruct H as (_ & H & _).
  - simpl. by destruct (renderTmpl tmpl d o _).
  - simpl. destruct (calls w !! n) as [c|]; [|done].
    destruct (pending c !! i) as [ev|]; [|done].
    pose proof (fire_post ev (glob w) (set_pending (delete i (pending c)) c))
      as H.
    destruct (fire _ _ _) as [[g' c'] r]. destruct H as (_ & _ & H & _).
    simpl. by rewrite H, heap_after_load.
Qed.

(** *** Texts that do not compile *)

Local Abbreviation never_succeeds :=
  (@never_succeeds Data Template EngineErr Err compile readFile).

Lemma filter_delete_length {A} (f : A → bool) (l : list A) i x :
  l !! i = Some x →
  length (filter (λ y, f y = true) l)
  = (if f x then 1 else 0) + length (filter (λ y, f y = true) (delete i l)).
Proof.
  revert i. induction l as [|y l IH]; intros [|i] Hi; try done; simpl in *.
  - injection Hi as ->. rewrite filter_cons.
    destruct (f x) eqn:Hx; case_decide; simpl; congruence.
  - rewrite !filter_cons. case_decide; simpl; rewrite (IH i Hi); lia.
Qed.

Lemma filter_length_lt {A} (f : A → bool) (l : list A) x :
  x ∈ l → f x = false → length (filter (λ y, f y = true) l) < length l.
Proof.
  intros Hx Hf. induction Hx as [x l|x y l Hx IH].
  - rewrite filter_cons. case_decide; [congruence|].
    cbn [length]. apply Nat.lt_succ_r, length_filter.
  - specialize (IH Hf). rewrite filter_cons. case_decide; cbn [length]; lia.
Qed.

Lemma no_rendering_app (d : list (Err + string)) e :
  (∀ s, inr s ∉ d) → ∀ s, inr s ∉ d ++ [inl e].
Proof.
  intros Hd s Hs. apply elem_of_app in Hs as [Hs|Hs]; [by apply (Hd s)|].
  apply list_elem_of_singleton in Hs. discriminate.
Qed.

(** A partial arrives while the main template cannot. *)
Lemma mapObj_next_main_never name x g c :
  (par c = ParWaiting ∨ ∃ ps, par c = ParPartials ps) →
  let '((g', c'), _) :=
    mapObj_next (parallel_task1 renderFile_callback) name x (g, c) in
  pending c' = pending c ∧
  ((delivered c' = delivered c ∧
    (par c' = ParWaiting ∨ ∃ ps, par c' = ParPartials ps)) ∨
   (∃ e, delivered c' = delivered c ++ [inl e] ∧ par c' = ParFailed)).
Proof.
  intros Hp.
  assert (Hquiet : ∀ c1, pending c1 = pending c → delivered c1 = delivered c →
    par c1 = par c →
    pending c1 = pending c ∧
    ((delivered c1 = delivered c ∧
      (par c1 = ParWaiting ∨ ∃ ps, par c1 = ParPartials ps)) ∨
     (∃ e, delivered c1 = delivered c ++ [inl e] ∧ par c1 = ParFailed))).
  { intros c1 ? ? Hp1. split; [done|]. left. by rewrite Hp1. }
  unfold mapObj_next, each_done, mapObj_callback, parallel_task1.
  munfold; simpl. destruct x as [e|t]; simpl.
  - destruct (each_live c); simpl; [|by apply Hquiet].
    destruct Hp as [Hp|[ps Hp]]; rewrite Hp; simpl.
    + rewrite renderFile_callback_err. simpl.
      destruct (rf_callback c); simpl.
      * split; [done|]. right. by exists e.
      * apply Hquiet; simpl; by rewrite ?Hp.
    + apply Hquiet; simpl; by rewrite ?Hp.
  - case_decide; [|by apply Hquiet].
    destruct (each_live c); simpl; [|by apply Hquiet].
    destruct Hp as [Hp|[ps Hp]]; rewrite Hp; simpl.
    + split; [done|]. left. eauto.
    + apply Hquiet; simpl; by rewrite ?Hp.
Qed.

(** A partial arrives while others are missing. *)
Lemma mapObj_next_incomplete name x g c :
  (par c = ParWaiting ∨ ∃ t, par c = ParMain t) →
  S (each_completed c) < each_total c →
  let '((g', c'), _) :=
    mapObj_next (parallel_task1 renderFile_callback) name x (g, c) in
  pending c' = pending c ∧ each_total c' = each_total c ∧
  ((delivered c' = delivered c ∧ par c' = par c ∧
    each_completed c' ≤ S (each_completed c)) ∨
   (∃ e, delivered c' = delivered c ++ [inl e] ∧ par c' = ParFailed)).
Proof.
  intros Hp Hlt.
  unfold mapObj_next, each_done, mapObj_callback, parallel_task1.
  munfold; simpl. destruct x as [e|t]; simpl.
  - destruct (each_live c); simpl;
      [|do 2 (split; [done|]); left; repeat split; simpl; lia].
    destruct Hp as [Hp|[t Hp]]; rewrite Hp; simpl;
      rewrite renderFile_callback_err; simpl;
      (destruct (rf_callback c); simpl;
       [do 2 (split; [done|]); right; by exists e
       |do 2 (split; [done|]); left; repeat split; simpl; done || lia]).
  - case_decide; [lia|]. do 2 (split; [done|]). left. by repeat split.
Qed.

(** The main template arrives while partials are missing. *)
Lemma task0_incomplete r g c :
  (par c = ParWaiting ∨ ∃ t, par c = ParMain t) →
  let '((g', c'), _) := parallel_task0 renderFile_callback r (g, c) in
  pending c' = pending c ∧ each_total c' = each_total c ∧
  each_completed c' = each_completed c ∧
  ((delivered c' = delivered c ∧
    (par c' = ParWaiting ∨ ∃ t, par c' = ParMain t)) ∨
   (∃ e, delivered c' = delivered c ++ [inl e] ∧ par c' = ParFailed)).
Proof.
  intros Hp. unfold parallel_task0. munfold; simpl.
  destruct Hp as [Hp|[t Hp]]; rewrite Hp; destruct r as [e|t']; simpl.
  - rewrite renderFile_callback_err. simpl.
    destruct (rf_callback c); simpl.
    + do 3 (split; [done|]). right. by exists e.
    + do 3 (split; [done|]). left. split; [done|]. by left.
  - do 3 (split; [done|]). left. split; [done|]. right. by eexists.
  - do 3 (split; [done|]). left. split; [done|]. right. by eexists.
  - do 3 (split; [done|]). left. split; [done|]. right. by eexists.
Qed.

Lemma never_succeeds_note (r : Exn + unit) c :
  never_succeeds c → never_succeeds (note r c).
Proof. by destruct r. Qed.

Lemma fire_never_succeeds g c i ev :
  never_succeeds c → pending c !! i = Some ev →
  let '((g', c'), r) :=
    fire renderFile_callback ev (g, set_pending (delete i (pending c)) c) in
  never_succeeds (note r c').
Proof.
  intros [Hd Hc] Hi.
  set (c0 := set_pending (delete i (pending c)) c).
  pose proof (filter_delete_length (partial_token compile readFile) (pending c) i ev
                Hi) as Hcount.
  assert (Hquiet : never_succeeds c0).
  { split; [done|]. destruct Hc as [Hc|[[Hp Hc]|[Hp Hc]]]; [by left|..].
    - right; left. split; [done|]. intros ev' Hev'. apply Hc.
      by apply elem_of_delete_inv in Hev'.
    - right; right. split; [done|]. simpl. lia. }
  rewrite fire_spec. destruct (load_of ev) as [e|x|t] eqn:Hload;
    [|by apply never_succeeds_note|].
  - (* the read has failed *)
    pose proof (good_apply_cont (ev_cont ev) (inl e) (after_load ev g) c0)
      as Hpost.
    destruct (ev_cont ev) as [|name] eqn:Hk; simpl in *.
    + destruct Hc as [Hc|[[Hp Hc]|[Hp Hc]]].
      * destruct (parallel_task0 _ _ _) as [[g' c'] r].
        apply never_succeeds_note.
        destruct Hpost as (_&_&_&_&_&_&_&_&Hs&_).
        destruct (Hs (or_intror Hc)) as [Hp' Hd']. split; [by rewrite Hd'|].
        left. by rewrite Hp'.
      * assert (main_token compile readFile ev = false) as Htok
          by (apply Hc; by eapply list_elem_of_lookup_2).
        unfold main_token in Htok. by rewrite Hk, Hload in Htok.
      * pose proof (task0_incomplete (inl e) (after_load ev g) c0 Hp) as H.
        destruct (parallel_task0 _ _ _) as [[g' c'] r].
        apply never_succeeds_note.
        destruct H as (Hpend & Ht & Hcomp & [[Hd' Hp']|(e' & Hd' & Hp')]).
        -- split; [by rewrite Hd'|]. right; right. split; [done|].
           rewrite Hpend, Ht, Hcomp. simpl. lia.
        -- split; [rewrite Hd'; by apply no_rendering_app|]. by left.
    + destruct Hc as [Hc|[[Hp Hc]|[Hp Hc]]].
      * destruct (mapObj_next _ _ _ _) as [[g' c'] r].
        apply never_succeeds_note.
        destruct Hpost as (_&_&_&_&_&_&_&_&Hs&_).
        destruct (Hs (or_intror Hc)) as [Hp' Hd']. split; [by rewrite Hd'|].
        left. by rewrite Hp'.
      * pose proof (mapObj_next_main_never name (inl e) (after_load ev g) c0 Hp)
          as H.
        destruct (mapObj_next _ _ _ _) as [[g' c'] r].
        apply never_succeeds_note.
        destruct H as (Hpend & [[Hd' Hp']|(e' & Hd' & Hp')]).
        -- split; [by rewrite Hd'|]. right; left. split; [done|].
           rewrite Hpend. intros ev' Hev'. apply Hc.
           by apply elem_of_delete_inv in Hev'.
        -- split; [rewrite Hd'; by apply no_rendering_app|]. by left.
      * assert (partial_token compile readFile ev = true) as Htok
          by (unfold partial_token; by rewrite Hk, Hload).
        rewrite Htok in Hcount.
        assert (Hlt : S (each_completed c0) < each_total c0)
          by (simpl; lia).
        pose proof (mapObj_next_incomplete name (inl e) (after_load ev g) c0
                      Hp Hlt) as H.
        destruct (mapObj_next _ _ _ _) as [[g' c'] r].
        apply never_succeeds_note.
        destruct H as (Hpend & Ht & [(Hd' & Hp' & Hcomp)|(e' & Hd' & Hp')]).
        -- split; [by rewrite Hd'|]. right; right. split; [by rewrite Hp'|].
           rewrite Hpend, Ht. simpl in *. lia.
        -- split; [rewrite Hd'; by apply no_rendering_app|]. by left.
  - (* a template has arrived *)
    pose proof (good_apply_cont (ev_cont ev) (inr t) (after_load ev g) c0)
      as Hpost.
    destruct (ev_cont ev) as [|name] eqn:Hk; simpl in *.
    + destruct Hc as [Hc|[[Hp Hc]|[Hp Hc]]].
      * destruct (parallel_task0 _ _ _) as [[g' c'] r].
        apply never_succeeds_note.
        destruct Hpost as (_&_&_&_&_&_&_&_&Hs&_).
        destruct (Hs (or_intror Hc)) as [Hp' Hd']. split; [by rewrite Hd'|].
        left. by rewrite Hp'.
      * assert (main_token compile readFile ev = false) as Htok
          by (apply Hc; by eapply list_elem_of_lookup_2).
        unfold main_token in Htok. by rewrite Hk, Hload in Htok.
      * pose proof (task0_incomplete (inr t) (after_load ev g) c0 Hp) as H.
        destruct (parallel_task0 _ _ _) as [[g' c'] r].
        apply never_succeeds_note.
        destruct H as (Hpend & Ht & Hcomp & [[Hd' Hp']|(e' & Hd' & Hp')]).
        -- split; [by rewrite Hd'|]. right; right. split; [done|].
           rewrite Hpend, Ht, Hcomp. simpl. lia.
        -- split; [rewrite Hd'; by apply no_rendering_app|]. by left.
    + destruct Hc as [Hc|[[Hp Hc]|[Hp Hc]]].
      * destruct (mapObj_next _ _ _ _) as [[g' c'] r].
        apply never_succeeds_note.
        destruct Hpost as (_&_&_&_&_&_&_&_&Hs&_).
        destruct (Hs (or_intror Hc)) as [Hp' Hd']. split; [by rewrite Hd'|].
        left. by rewrite Hp'.
      * pose proof (mapObj_next_main_never name (inr t) (after_load ev g) c0 Hp)
          as H.
        destruct (mapObj_next _ _ _ _) as [[g' c'] r].
        apply never_succeeds_note.
        destruct H as (Hpend & [[Hd' Hp']|(e' & Hd' & Hp')]).
        -- split; [by rewrite Hd'|]. right; left. split; [done|].
           rewrite Hpend. intros ev' Hev'. apply Hc.
           by apply elem_of_delete_inv in Hev'.
        -- split; [rewrite Hd'; by apply no_rendering_app|]. by left.
      * assert (partial_token compile readFile ev = true) as Htok
          by (unfold partial_token; by rewrite Hk, Hload).
        rewrite Htok in Hcount.
        assert (Hlt : S (each_completed c0) < each_total c0)
          by (simpl; lia).
        pose proof (mapObj_next_incomplete name (inr t) (after_load ev g) c0
                      Hp Hlt) as H.
        destruct (mapObj_next _ _ _ _) as [[g' c'] r].
        apply never_succeeds_note.
        destruct H as (Hpend & Ht & [(Hd' & Hp' & Hcomp)|(e' & Hd' & Hp')]).
        -- split; [by rewrite Hd'|]. right; right. split; [by rewrite Hp'|].
           rewrite Hpend, Ht. simpl in *. lia.
        -- split; [rewrite Hd'; by apply no_rendering_app|]. by left.
Qed.


(** *** The registry across the event loop *)

Local Abbreviation tidy := (@tidy Data Helper Template EngineErr Err).

Lemma reg_le_refl (r : Registry) : reg_le r r.
Proof. by split. Qed.

Lemma reg_le_trans (r1 r2 r3 : Registry) :
  reg_le r1 r2 → reg_le r2 r3 → reg_le r1 r3.
Proof. intros [? ?] [? ?]. split; by etrans. Qed.

Lemma difference_union_subseteq {V} (ps m : gmap string V) :
  (ps ∪ m) ∖ ps ⊆ m.
Proof.
  apply map_subseteq_spec. intros i x.
  rewrite lookup_difference_Some. intros [H Hi].
  by rewrite lookup_union_r in H.
Qed.

Lemma renderTmpl_reg_le tmpl data opts (r r' : Registry) s :
  renderTmpl tmpl data opts r = (r', inr s) → reg_le r' r.
Proof.
  rewrite renderTmpl_spec. destruct (resolve compile tmpl) as [e|t]; [done|].
  cbv zeta. destruct (invoke t _ data) as [e|s']; [done|].
  intros [= <- _]. rewrite unregister_spec, register_spec.
  split; apply difference_union_subseteq.
Qed.

Lemma tidy_ret {A} (a : A) : tidy (mret a).
Proof. intros g c. apply reg_le_refl. Qed.

Lemma tidy_throw {A} e : tidy (throw e : M Exn St A).
Proof. by intros g c. Qed.

Lemma tidy_gets {A} (f : St → A) : tidy (gets f).
Proof. intros g c. apply reg_le_refl. Qed.

Lemma tidy_on_call (f : Call → Call) : tidy (on_call f).
Proof. intros g c. apply reg_le_refl. Qed.

Lemma tidy_bind {A B} (m : M Exn St A) (f : A → M Exn St B) :
  tidy m → (∀ a, tidy (f a)) → tidy (m ≫= f).
Proof.
  intros Hm Hf g c. specialize (Hm g c). unfold mbind, M_bind.
  destruct (m (g, c)) as [[g1 c1] [e|a]]; [done|].
  specialize (Hf a g1 c1). destruct (f a (g1, c1)) as [[g2 c2] [e|b]]; [done|].
  by eapply reg_le_trans.
Qed.

Lemma tidy_renderFile_callback x : tidy (renderFile_callback x).
Proof.
  intros g c. destruct x as [e|[t ps]].
  - rewrite renderFile_callback_err.
    destruct (rf_callback c); [apply reg_le_refl|done].
  - rewrite renderFile_callback_ok.
    destruct (heap g !! rf_opts c) as [o|]; [|done].
    destruct (renderTmpl _ _ _ _) as [r [y|s]] eqn:Hr; [done|].
    destruct (rf_callback c); [|done]. simpl.
    by apply renderTmpl_reg_le in Hr.
Qed.

Lemma tidy_task0 r : tidy (parallel_task0 renderFile_callback r).
Proof.
  unfold parallel_task0. apply tidy_bind; [apply tidy_gets|]. intros p.
  destruct p, r;
    repeat first [ apply tidy_ret | apply tidy_on_call
                 | apply tidy_renderFile_callback
                 | apply tidy_bind; [|intros ?] ].
Qed.

Lemma tidy_task1 err ps : tidy (parallel_task1 renderFile_callback err ps).
Proof.
  unfold parallel_task1. apply tidy_bind; [apply tidy_gets|]. intros p.
  destruct p, err;
    repeat first [ apply tidy_ret | apply tidy_on_call
                 | apply tidy_renderFile_callback
                 | apply tidy_bind; [|intros ?] ].
Qed.

Lemma tidy_apply_cont k r : tidy (apply_cont renderFile_callback k r).
Proof.
  destruct k as [|name]; simpl; [apply tidy_task0|].
  unfold mapObj_next, each_done, mapObj_callback.
  apply tidy_bind; [apply tidy_on_call|]. intros _.
  destruct r as [e|t].
  - apply tidy_bind; [apply tidy_gets|]. intros live.
    apply tidy_bind; [|intros _; apply tidy_on_call].
    destruct live; [|apply tidy_ret].
    apply tidy_bind; [apply tidy_gets|]. intros res. apply tidy_task1.
  - apply tidy_bind; [apply tidy_on_call|]. intros _.
    apply tidy_bind; [apply tidy_gets|]. intros c.
    case_decide; [|apply tidy_ret].
    destruct (each_live c); [|apply tidy_ret].
    apply tidy_bind; [apply tidy_gets|]. intros res. apply tidy_task1.
Qed.

Lemma fire_tidy ev : tidy (fire renderFile_callback ev).
Proof.
  intros g c. rewrite fire_spec.
  pose proof (tidy_apply_cont (ev_cont ev)) as H.
  destruct (load_of ev) as [e|x|t]; [|done|].
  - specialize (H (inl e) (after_load ev g) c).
    destruct (apply_cont _ _ _ _) as [[g' c'] [y|[]]]; [done|].
    by rewrite registry_after_load in H.
  - specialize (H (inr t) (after_load ev g) c).
    destruct (apply_cont _ _ _ _) as [[g' c'] [y|[]]]; [done|].
    by rewrite registry_after_load in H.
Qed.


(** *** The early variant *)

(** X21: in the early variant the cache holds the text, and [render]
    tests the cached text for truth: after a read that succeeded, a render
    of the path is served from the cache without a read when the text is
    not empty, and reads the file again when the file is empty, however
    often it was read before. *)
Theorem early_empty_text_is_read_again tmplPath src data callback
    (g : Early.Global Helper Template Err)
    (activation : Early.Call Data EngineErr Err) :
  readFile tmplPath = inr src →
  let g1 := (Early.fire compile invoke readFile (Early.Read tmplPath)
               (g, activation)).1.1 in
  Early.cache g1 !! tmplPath = Some src ∧
  @Early.render Data Helper Template EngineErr Err tmplPath data callback g1
  = if Early.truthy src
    then (g1, Early.mkCall data callback [Early.Tick src] [] [])
    else (Early.observe (ReadCall tmplPath) g1,
          Early.mkCall data callback [Early.Read tmplPath] [] []).
Proof.
  intros Hr g1. subst g1.
  pose proof (early_fire_spec compile invoke readFile (Early.Read tmplPath)
                g activation) as H.
  destruct (Early.fire _ _ _ _ _) as [[g1 c1] r]. simpl.
  destruct H as (_ & _ & _ & _ & _ & H). rewrite Hr in H.
  assert (Hc : Early.cache g1 !! tmplPath = Some src)
    by (rewrite H; apply lookup_insert_eq).
  split; [done|]. unfold Early.render. rewrite Hc.
  by destruct (Early.truthy src).
Qed.

(** X22: the early variant saves the read, not the compilation: the
    callback of a render served from the cache compiles the cached text
    again and calls back with what the template gives; a cached text that
    does not compile raises at every such render, and the callback is not
    called. *)
Theorem early_cache_hit_compiles_again tmplPath src data callback
    (g : Early.Global Helper Template Err) :
  Early.cache g !! tmplPath = Some src → Early.truthy src = true →
  @Early.render Data Helper Template EngineErr Err tmplPath data callback g
  = (g, Early.mkCall data callback [Early.Tick src] [] []) ∧
  ∀ (g2 : Early.Global Helper Template Err)
    (c2 : Early.Call Data EngineErr Err),
    is_Some (Early.r_callback c2) →
    Early.fire compile invoke readFile (Early.Tick src) (g2, c2)
    = match compile src with
      | inl x => ((g2, c2), inl (Raised x))
      | inr t =>
          match invoke t (Early.registry g2) (Early.r_data c2) with
          | inl x => ((g2, c2), inl (Raised x))
          | inr s =>
              ((g2, Early.set_delivered (Early.delivered c2 ++ [inr s]) c2),
               inr tt)
          end
      end.
Proof.
  intros Hc Ht. split.
  - unfold Early.render. by rewrite Hc, Ht.
  - intros g2 c2 [f Hcb]. simpl.
    unfold Early.render_and_call_back, Early._render, Early.call_callback,
      Handlebars_compile, call_tmpl, zoom.
    unfold mbind, M_bind, mret, M_ret, gets, modify, throw. simpl.
    destruct (compile src) as [x|t]; simpl; [by destruct g2|].
    destruct (invoke t (Early.registry g2) (Early.r_data c2)) as [x|s];
      simpl; [by destruct g2|].
    rewrite Hcb. simpl. by destruct g2.
Qed.

End DucktailFacts.

(** *** The helper of the tests *)


(** ** The claims on the sample data *)






(** C5, witness: two renders of the same file. *)
Lemma cached_template_needs_no_read_witness :
  cache (glob Sample.start) !! "tmpl.hbs" = None ∧
  Sample.readFile "tmpl.hbs" = inr "{{title}}" ∧
  Sample.compile "{{title}}" = inr "{{title}}" ∧
  callCount
    (trace (glob (run Sample.compile Sample.invoke Sample.readFile
                    [CallRender "tmpl.hbs" "Title" (OptsFn 7) None; Fire 0 0;
                     CallRender "tmpl.hbs" "Other" (OptsFn 8) None; Fire 1 0]
                    Sample.start))) = 1.
Proof.
  do 3 (split; [reflexivity|]).
  exact (proj2 (proj2 (cached_template_needs_no_read Sample.compile
    Sample.invoke Sample.readFile "tmpl.hbs" "{{title}}"))
    Sample.start "{{title}}" "Title" "Other" 7 8 None None
    eq_refl eq_refl eq_refl).
Defined.

(** C6, witness: a template with one partial; the callback of the main
    template fires first. *)
Lemma get_joins_template_and_partials_witness :
  let g := Sample.fresh in
  let c := @new_call string string string string "Title" 0 (Some 7) in
  let evm := Read "with-partial.hbs" KMain in
  let evs : gmap string (Event string) :=
    {["partial" := Read "partial.hbs" (KPartial "partial")]} in
  ∃ g' c',
    _get "with-partial.hbs" (Some {["partial" := "partial.hbs"]})
      (renderFile_callback Sample.compile Sample.invoke) (g, c)
    = ((g', c'), inr tt) ∧
    pending c' = [evm; Read "partial.hbs" (KPartial "partial")] ∧
    ∃ c2,
      fire Sample.compile Sample.readFile
        (renderFile_callback Sample.compile Sample.invoke) evm
        (g', set_pending (delete 0 (pending c')) c')
      = ((after_load Sample.compile Sample.readFile evm g', c2), inr tt) ∧
      par c2 = ParMain "{{> partial}}".
Proof.
  intros g c evm evs.
  destruct (get_joins_template_and_partials Sample.compile Sample.invoke
              Sample.readFile "with-partial.hbs" {["partial" := "partial.hbs"]} g c eq_refl)
    as (Hstart & Hfire & _).
  destruct (Hstart (renderFile_callback Sample.compile Sample.invoke))
    as (g' & c' & Hget & _ & Hpend & HR).
  exists g', c'. split; [exact Hget|].
  assert (Hp : pending c' = [evm; Read "partial.hbs" (KPartial "partial")]).
  { rewrite Hpend. vm_compute. reflexivity. }
  split; [exact Hp|].
  assert (H0 : pending c' !! 0 = Some evm) by (by rewrite Hp).
  assert (Hevm : lookup_event g "with-partial.hbs" KMain = evm)
    by (vm_compute; reflexivity).
  rewrite Hevm in HR, Hfire.
  assert (Hw : par c' = ParWaiting).
  { destruct (run_phase _ _ _ _ _ _ HR)
      as [(Hw & _)|[(t' & _ & _ & _ & Hq)|(_ & He & _)]]; [done| |].
    - exfalso. rewrite Hp in Hq. apply Permutation_length in Hq.
      unfold pending_of in Hq. rewrite length_fmap, length_map_to_list in Hq.
      rewrite partial_events_size, map_size_singleton in Hq. simpl in Hq. lia.
    - exfalso. apply (f_equal size) in He. rewrite partial_events_size in He.
      by rewrite map_size_singleton, map_size_empty in He. }
  assert (Hl' : load_of Sample.compile Sample.readFile evm
                = LoadOk "{{> partial}}") by (vm_compute; reflexivity).
  assert (Hquiet : ∀ cb,
    fire Sample.compile Sample.readFile cb evm
      (g', set_pending (delete 0 (pending c')) c')
    = ((after_load Sample.compile Sample.readFile evm g',
        set_par (ParMain "{{> partial}}")
          (set_pending (delete 0 (pending c')) c')), inr tt)).
  { intros cb. rewrite fire_spec, Hl'. simpl. by rewrite task0_waiting. }
  destruct (Hfire _ g' c' 0 evm HR H0)
    as [(t & c2 & todo' & _ & Hf & _)
       |[(e & c2 & f & Hl & _)
        |[(t & m & c2 & Hf & _)|(x & Hl & _)]]].
  - exists c2. split; [apply Hf|].
    specialize (Hf (renderFile_callback Sample.compile Sample.invoke)).
    rewrite Hquiet in Hf. by injection Hf as <-.
  - exfalso. rewrite Hl' in Hl. discriminate.
  - exfalso. specialize (Hf (λ _, throw TypeError)).
    rewrite Hquiet in Hf. discriminate.
  - exfalso. rewrite Hl' in Hl. discriminate.
Defined.

(** C8, witness: [render] with an options object that has helpers only. *)
Lemma render_normalizes_then_delegates_witness :
  let obj := mkOptions None (Some {["formatPhone" := "fn"]}) in
  let g : Global string string string :=
    mkGlobal ∅ Sample.empty_registry [obj] [] in
  heap g !! 0 = Some obj ∧
  render Sample.compile Sample.invoke "tmpl.hbs" "Title" (OptsObj 0) (Some 7) g
  = (let g1 := set_heap <[0 := mkOptions (Some ∅)
                               (Some {["formatPhone" := "fn"]})]> g in
     let '((g2, c), r) :=
       renderFile Sample.compile Sample.invoke "tmpl.hbs" "Title" 0 (Some 7)
         g1 in
     (g2, Some c, r)).
Proof.
  intros obj g. split; [reflexivity|].
  exact (proj2 (render_normalizes_then_delegates Sample.compile Sample.invoke
    "tmpl.hbs" "Title" (Some 7) g) 0 obj eq_refl).
Defined.

(** C10, witness: the options object of the caller after [render]. *)
Lemma render_writes_the_defaults_in_place_witness :
  let obj := mkOptions None (None : option (gmap string string)) in
  let g : Global string string string :=
    mkGlobal ∅ Sample.empty_registry [obj] [] in
  heap g !! 0 = Some obj ∧
  ∃ g' activation r,
    render Sample.compile Sample.invoke "tmpl.hbs" "Title" (OptsObj 0)
      (Some 7) g = (g', activation, r) ∧
    heap g' !! 0 = Some (mkOptions (Some ∅) (Some ∅)).
Proof.
  intros obj g. split; [reflexivity|].
  destruct (render Sample.compile Sample.invoke "tmpl.hbs" "Title"
              (OptsObj 0) (Some 7) g) as [[g' activation] r] eqn:E.
  exists g', activation, r. split; [reflexivity|].
  exact (proj1 (proj1 (render_writes_the_defaults_in_place Sample.compile
    Sample.invoke "tmpl.hbs" "Title" (Some 7) g) 0 obj g' activation r
    eq_refl E)).
Defined.

(** ** The further properties on the sample data *)


(** X4, witness: a render with the partial of the tests. *)
Lemma render_returns_before_calling_back_witness :
  let obj := mkOptions (Some Fixtures.partials) None in
  let g := glob (Fixtures.with_options obj) in
  heap g !! 0 = Some obj ∧
  ∃ g' c, render Sample.compile Sample.invoke "with-partial.hbs" "Title"
            (OptsObj 0) (Some 7) g = (g', Some c, inr tt) ∧
          delivered c = [] ∧ length (pending c) = 2.
Proof.
  intros obj g. split; [reflexivity|].
  destruct (proj2 (render_returns_before_calling_back Sample.compile
                     Sample.invoke "with-partial.hbs" "Title" (Some 7) g)
              0 obj eq_refl) as (g' & c & H & Hd & _ & Hl).
  exists g', c. split; [exact H|]. split; [exact Hd|].
  rewrite Hl. vm_compute. reflexivity.
Defined.

(** X5, witness: the template and its partial, neither cached. *)
Lemma render_reads_every_uncached_path_witness :
  let obj := mkOptions (Some Fixtures.partials) None in
  let g := glob (Fixtures.with_options obj) in
  heap g !! 0 = Some obj ∧
  ∃ g' c, render Sample.compile Sample.invoke "with-partial.hbs" "Title"
            (OptsObj 0) (Some 7) g = (g', Some c, inr tt) ∧
          callCount (trace g') = 2.
Proof.
  intros obj g. split; [reflexivity|].
  destruct (render_reads_every_uncached_path Sample.compile Sample.invoke
              "with-partial.hbs" "Title" 0 obj (Some 7) g eq_refl)
    as (g' & c & H & _ & Hn).
  exists g', c. split; [exact H|]. rewrite Hn. vm_compute. reflexivity.
Defined.

(** X6, witness: two renders of tmpl.hbs in a row. *)
Lemma renders_in_flight_both_read_witness :
  cache (glob Sample.start) !! "tmpl.hbs" = None ∧
  callCount
    (trace (glob (run Sample.compile Sample.invoke Sample.readFile
                    [CallRender "tmpl.hbs" "A" (OptsFn 7) None;
                     CallRender "tmpl.hbs" "B" (OptsFn 8) None]
                    Sample.start))) = 2.
Proof.
  split; [reflexivity|].
  apply (renders_in_flight_both_read Sample.compile Sample.invoke
           Sample.readFile Sample.start "tmpl.hbs" "A" "B" 7 8 None None).
  reflexivity.
Defined.

(** X8, witness: the read of the waiting render completes. *)
Lemma callbacks_schedule_nothing_witness :
  calls Fixtures.rendering !! 0 = Some Fixtures.waiting ∧
  ∃ c', calls (step Sample.compile Sample.invoke Sample.readFile (Fire 0 0)
                 Fixtures.rendering) !! 0 = Some c' ∧
        pending c' = [].
Proof.
  split; [reflexivity|].
  destruct (proj1 (callbacks_schedule_nothing Sample.compile Sample.invoke
                     Sample.readFile)
              Fixtures.rendering 0 0 Fixtures.waiting (Read "tmpl.hbs" KMain)
              eq_refl eq_refl) as (c' & H & Hp).
  exists c'. split; [exact H|exact Hp].
Defined.

(** X9, witness: the cache is cleared while the read is under way. *)
Lemma clearCache_keeps_reads_in_flight_witness :
  pending Fixtures.waiting !! 0 = Some (Read "tmpl.hbs" KMain) ∧
  cache (glob (step Sample.compile Sample.invoke Sample.readFile (Fire 0 0)
                 (step Sample.compile Sample.invoke Sample.readFile
                    CallClearCache Fixtures.rendering))) !! "tmpl.hbs"
  = Some "{{title}}".
Proof.
  split; [reflexivity|].
  destruct (clearCache_keeps_reads_in_flight Sample.compile Sample.invoke
              Sample.readFile Fixtures.rendering 0 0 Fixtures.waiting
              "tmpl.hbs" KMain "{{title}}" "{{title}}"
              eq_refl eq_refl eq_refl eq_refl) as (_ & _ & H).
  exact H.
Defined.

(** X10, witness: a render from the cache. *)
Lemma cache_entries_stay_until_clearCache_witness :
  cache (glob Fixtures.cached) !! "tmpl.hbs" = Some "{{title}}" ∧
  is_Some
    (cache (glob (run Sample.compile Sample.invoke Sample.readFile
                    [CallRender "tmpl.hbs" "Title" (OptsFn 7) None; Fire 0 0]
                    Fixtures.cached)) !! "tmpl.hbs").
Proof.
  split; [reflexivity|].
  apply (cache_entries_stay_until_clearCache Sample.compile Sample.invoke
           Sample.readFile).
  - repeat constructor; discriminate.
  - exists "{{title}}". reflexivity.
Defined.


(** X12, witness: the first test, "Should render file". *)
Lemma render_delivers_the_rendering_witness :
  load_of Sample.compile Sample.readFile
    (lookup_event (glob Sample.start) "tmpl.hbs" KMain) = LoadOk "{{title}}" ∧
  ∃ c, calls (run Sample.compile Sample.invoke Sample.readFile
                [CallRender "tmpl.hbs" "Title" (OptsFn 7) None; Fire 0 0]
                Sample.start) !! 0 = Some c ∧
       delivered c = [inr "Title"].
Proof.
  split; [reflexivity|].
  destruct (render_delivers_the_rendering Sample.compile Sample.invoke
              Sample.readFile Sample.start "tmpl.hbs" "Title" 7 None
              "{{title}}" "Title" eq_refl eq_refl) as (c & H & Hd & _).
  exists c. split; [exact H|exact Hd].
Defined.




(** X16, witness: after the render with the partial of the tests, the
    partial is in the cache. *)
Lemma finished_render_has_cached_its_paths_witness :
  let obj := mkOptions (Some Fixtures.partials) None in
  Sample.readFile "partial.hbs" = inr "Partial" ∧
  is_Some
    (cache (glob (run Sample.compile Sample.invoke Sample.readFile
                    [Fire 0 0; Fire 0 0]
                    (step Sample.compile Sample.invoke Sample.readFile
                       (CallRender "with-partial.hbs" "Title" (OptsObj 0)
                          (Some 7))
                       (Fixtures.with_options obj)))) !! "partial.hbs").
Proof.
  intros obj. split; [reflexivity|].
  destruct (calls (run Sample.compile Sample.invoke Sample.readFile
                     [Fire 0 0; Fire 0 0]
                     (step Sample.compile Sample.invoke Sample.readFile
                        (CallRender "with-partial.hbs" "Title" (OptsObj 0)
                           (Some 7))
                        (Fixtures.with_options obj))) !! 0)
    as [c|] eqn:Hc; [|vm_compute in Hc; discriminate].
  assert (pending c = []) as Hp.
  { vm_compute in Hc. injection Hc as <-. reflexivity. }
  apply (finished_render_has_cached_its_paths Sample.compile Sample.invoke
           Sample.readFile (Fixtures.with_options obj) "with-partial.hbs"
           "Title" 0 obj (Some 7) [Fire 0 0; Fire 0 0] c "partial.hbs"
           "Partial" "Partial" eq_refl).
  - repeat constructor; discriminate.
  - exact Hc.
  - exact Hp.
  - apply list_elem_of_In. vm_compute. right. left. reflexivity.
  - reflexivity.
  - reflexivity.
Defined.


(** X21, witness: the empty file is read, and read again. *)
Lemma early_empty_text_is_read_again_witness :
  let g1 := (Early.fire Sample.compile Sample.invoke Fixtures.readFile
               (Early.Read "empty.hbs")
               (Sample.early_fresh, Early.mkCall "Title" (Some 7) [] [] [])
            ).1.1 in
  Fixtures.readFile "empty.hbs" = inr "" ∧
  @Early.render string string string string string "empty.hbs" "Title"
    (Some 7) g1
  = (Early.observe (ReadCall "empty.hbs") g1,
     Early.mkCall "Title" (Some 7) [Early.Read "empty.hbs"] [] []).
Proof.
  intros g1. split; [reflexivity|].
  exact (proj2 (early_empty_text_is_read_again Sample.compile Sample.invoke
                  Fixtures.readFile "empty.hbs" "" "Title" (Some 7)
                  Sample.early_fresh
                  (Early.mkCall "Title" (Some 7) [] [] []) eq_refl)).
Defined.

(** X22, witness: a render from the cache of the early variant. *)
Lemma early_cache_hit_compiles_again_witness :
  Early.cache Fixtures.early_cached !! "tmpl.hbs" = Some "{{title}}" ∧
  @Early.render string string string string string "tmpl.hbs" "Title"
    (Some 7) Fixtures.early_cached
  = (Fixtures.early_cached,
     Early.mkCall "Title" (Some 7) [Early.Tick "{{title}}"] [] []).
Proof.
  split; [reflexivity|].
  exact (proj1 (early_cache_hit_compiles_again Sample.compile Sample.invoke
                  Sample.readFile "tmpl.hbs" "{{title}}" "Title" (Some 7)
                  Fixtures.early_cached eq_refl eq_refl)).
Defined.


(** X17, witness: the render with the partial of the tests, twice. *)
Lemma second_render_reads_nothing_witness :
  let obj := mkOptions (Some Fixtures.partials) None in
  let w' := run Sample.compile Sample.invoke Sample.readFile
              [Fire 0 0; Fire 0 0]
              (step Sample.compile Sample.invoke Sample.readFile
                 (CallRender "with-partial.hbs" "Title" (OptsObj 0) (Some 7))
                 (Fixtures.with_options obj)) in
  callCount (trace (glob w')) = 2 ∧
  callCount
    (trace (glob (step Sample.compile Sample.invoke Sample.readFile
                    (CallRender "with-partial.hbs" "Again" (OptsObj 0)
                       (Some 8)) w')))
  = callCount (trace (glob w')).
Proof.
  intros obj w'. split; [vm_compute; reflexivity|].
  destruct (calls w' !! 0) as [c|] eqn:Hc; [|vm_compute in Hc; discriminate].
  assert (pending c = []) as Hp.
  { vm_compute in Hc. injection Hc as <-. reflexivity. }
  apply (second_render_reads_nothing Sample.compile Sample.invoke
           Sample.readFile (Fixtures.with_options obj) "with-partial.hbs"
           "Title" 0 obj (Some 7) [Fire 0 0; Fire 0 0] c "Again" 0
           (mkOptions (Some Fixtures.partials) (Some ∅)) (Some 8) eq_refl).
  - repeat constructor; discriminate.
  - exact Hc.
  - exact Hp.
  - intros p Hin. apply list_elem_of_In in Hin. vm_compute in Hin.
    destruct Hin as [<-|[<-|[]]]; eexists _, _; split; reflexivity.
  - vm_compute. reflexivity.
  - reflexivity.
Defined.

